(** * imagen.transferfn.sheetTF: the [Convolve] transfer function

    A shallow embedding of [Convolve] (src/imagen/transferfn/sheetTF.py).

    Python objects live in a store indexed by references; an ndarray
    argument is a reference into that store, so in-place mutation and
    aliasing are explicit.  NumPy's element arithmetic is an interface
    ([NumPy]) with two instances: exact arithmetic over the reals and
    the complex numbers, where the discrete Fourier transform is the
    documented double sum, and IEEE-754 binary64, where the division
    and the addition are those of [SpecFloat]. *)

From Stdlib Require Import Reals Lra Lia ZArith List Bool.
From Stdlib Require Import Floats.SpecFloat.
From stdpp Require Import gmap strings.

Set Implicit Arguments.

(** ** Python outcomes *)

(** The exceptions this module can raise or let through. *)
Inductive exn : Type :=
| Exception (msg : string)   (* raise Exception(msg) *)
| ValueError                 (* numpy: empty FFT input, shapes that do not broadcast *)
| IndexError                 (* numpy: fft2 of an object without two axes *)
| TypeError                  (* a reference that is not an ndarray *)
| AttributeError             (* an attribute the object does not have *)
| KeyError (key : string)    (* kwargs[key] on a missing key *)
| InitializationError.       (* TransferFn.initialize without its inputs *)

Inductive result (A : Type) : Type :=
| Return (a : A)
| Raise (e : exn).
Arguments Return {A} a.
Arguments Raise {A} e.

Definition bind {A B} (m : result A) (f : A -> result B) : result B :=
  match m with
  | Return a => f a
  | Raise e => Raise e
  end.

Notation "'letE' x := m 'in' k" := (bind m (fun x => k))
  (at level 10, x name, m at level 100, k at level 200).

(** ** Two-dimensional ndarrays *)

(** A 2-D ndarray is the list of its rows. *)
Definition ndarray (A : Type) : Type := list (list A).

Definition nrows {A} (a : ndarray A) : nat := length a.
Definition ncols {A} (a : ndarray A) : nat := length (hd [] a).

(** [a.shape == (m, n)] for a rectangular array. *)
Definition has_shape {A} (m n : nat) (a : ndarray A) : Prop :=
  length a = m /\ Forall (fun r => length r = n) a.

(** [a[i, j]], with [d] outside the array. *)
Definition item {A} (d : A) (a : ndarray A) (i j : nat) : A :=
  nth j (nth i a []) d.

(** The array of shape (m, n) whose entry (i, j) is [f i j]. *)
Definition mk2 {A} (m n : nat) (f : nat -> nat -> A) : ndarray A :=
  map (fun i => map (f i) (seq 0 n)) (seq 0 m).

(** [np.roll] of a sequence: the element at index [i] moves to index
    [(i + shift) mod n]. *)
Definition roll {A} (shift : Z) (l : list A) : list A :=
  let k := Z.to_nat ((- shift) mod Z.of_nat (length l)) in
  skipn k l ++ firstn k l.

(** A cyclic shift by [s] along an axis of length [n] moves index [i]
    to [(i + s) mod n]: the entry at [i] comes from [(i - s) mod n]. *)
Definition shifted_from (n : nat) (s : Z) (i : nat) : nat :=
  Z.to_nat ((Z.of_nat i - s) mod Z.of_nat n).

(** [np.roll(a, shift, axis=-1)]: along the columns, inside each row. *)
Definition roll_cols {A} (shift : Z) (a : ndarray A) : ndarray A :=
  map (roll shift) a.

(** [np.roll(a, shift, axis=-2)]: along the rows. *)
Definition roll_rows {A} (shift : Z) (a : ndarray A) : ndarray A :=
  roll shift a.

(** NumPy broadcasting of one axis: equal lengths, or one of them 1. *)
Definition broadcast_dim (m n : nat) : option nat :=
  if m =? n then Some m
  else if m =? 1 then Some n
  else if n =? 1 then Some m
  else None.

(** Index into an axis of length [m] that may have been stretched. *)
Definition bidx (m i : nat) : nat := if m =? 1 then 0 else i.

(** ** The arithmetic NumPy is used with *)

Class NumPy (real cplx : Type) : Type := {
  np_zero : real;                                  (* 0.0 *)
  np_czero : cplx;                                 (* 0j *)
  np_add : real -> real -> real;                   (* + on float64 *)
  np_div : real -> real -> real;                   (* / on float64 *)
  np_cmul : cplx -> cplx -> cplx;                  (* * on complex128 *)
  np_re : cplx -> real;                            (* .real *)
  np_sum : ndarray real -> real;                   (* ndarray.sum() *)
  np_dft2 : ndarray real -> nat -> nat -> cplx;    (* entry (u, v) of fft2(a) *)
  np_idft2 : ndarray cplx -> nat -> nat -> cplx    (* entry (i, j) of ifft2(a) *)
}.

Section Arrays.
Context {real cplx : Type} `{NumPy real cplx}.

(** [np.fft.fft2(a)].  [None] stands for Python's [None], which has no
    axes -2 and -1; an axis of length 0 is refused. *)
Definition fft2 (a : option (ndarray real)) : result (ndarray cplx) :=
  match a with
  | None => Raise IndexError
  | Some a =>
      if (nrows a =? 0) || (ncols a =? 0) then Raise ValueError
      else Return (mk2 (nrows a) (ncols a) (np_dft2 a))
  end.

(** [np.fft.ifft2(a)]. *)
Definition ifft2 (a : ndarray cplx) : result (ndarray cplx) :=
  if (nrows a =? 0) || (ncols a =? 0) then Raise ValueError
  else Return (mk2 (nrows a) (ncols a) (np_idft2 a)).

(** [a * b] on complex arrays, with broadcasting. *)
Definition multiply (a b : ndarray cplx) : result (ndarray cplx) :=
  match broadcast_dim (nrows a) (nrows b), broadcast_dim (ncols a) (ncols b) with
  | Some m, Some n =>
      Return (mk2 m n (fun i j =>
        np_cmul (item np_czero a (bidx (nrows a) i) (bidx (ncols a) j))
                (item np_czero b (bidx (nrows b) i) (bidx (ncols b) j))))
  | _, _ => Raise ValueError
  end.

(** [a.real]. *)
Definition real_part (a : ndarray cplx) : ndarray real :=
  map (map np_re) a.

(** [a / s] for a scalar [s].  In NumPy's default error state a
    division by zero warns and does not raise: the results are those
    of [np_div]. *)
Definition divide (a : ndarray real) (s : real) : ndarray real :=
  map (map (fun v => np_div v s)) a.

(** The contents of [x] after [x.fill(0.0)]. *)
Definition fill_zero (x : ndarray real) : ndarray real :=
  map (map (fun _ => np_zero)) x.

(** The contents of [x] after [x += c]; [c] must broadcast to the
    shape of [x], which never changes. *)
Definition iadd (x c : ndarray real) : result (ndarray real) :=
  match broadcast_dim (nrows x) (nrows c), broadcast_dim (ncols x) (ncols c) with
  | Some m, Some n =>
      if (m =? nrows x) && (n =? ncols x) then
        Return (mk2 m n (fun i j =>
          np_add (item np_zero x i j)
                 (item np_zero c (bidx (nrows c) i) (bidx (ncols c) j))))
      else Raise ValueError
  | _, _ => Raise ValueError
  end.

(** Lines 63-69 of [Convolve.__call__]: the value bound to
    [convolved], from the kernel attribute and the contents of [x]. *)
Definition convolved (kernel : option (ndarray real)) (x : ndarray real)
  : result (ndarray real) :=
  letE fft1 := fft2 (Some x) in
  letE fft2' := fft2 kernel in
  letE prod := multiply fft1 fft2' in
  letE inv := ifft2 prod in
  let convolved_raw := real_part inv in
  match kernel with
  | None => Raise AttributeError
  | Some k =>
      let k_rows := nrows k in
      let k_cols := ncols k in
      let rolled :=
        roll_rows (- Z.of_nat (k_rows / 2))
          (roll_cols (- Z.of_nat (k_cols / 2)) convolved_raw) in
      Return (divide rolled (np_sum k))
  end.

(** [convolved_raw] when the field and the kernel array both have
    shape (m, n), and what the call then leaves in the field, entry
    by entry. *)
Definition same_shape_raw (m n : nat) (k xa : ndarray real) : ndarray real :=
  real_part (mk2 m n (np_idft2
    (mk2 m n (fun u v => np_cmul (np_dft2 xa u v) (np_dft2 k u v))))).

Definition same_shape_contents (m n : nat) (k xa : ndarray real) : ndarray real :=
  mk2 m n (fun i j =>
    np_add np_zero
      (np_div (item np_zero (same_shape_raw m n k xa)
                 (shifted_from m (- Z.of_nat (m / 2)) i)
                 (shifted_from n (- Z.of_nat (n / 2)) j))
              (np_sum k))).

(** The result of Apply in the words of the spec, for any arithmetic.
    With (m, n) the shape of the kernel array: the real part of the
    inverse 2-D transform of the element-wise product of the 2-D
    transforms of the field and of the kernel array ... *)
Definition raw_convolved_np (k x : ndarray real) : ndarray real :=
  let m := nrows k in
  let n := ncols k in
  real_part (mk2 m n (np_idft2
    (mk2 m n (fun u v => np_cmul (np_dft2 x u v) (np_dft2 k u v))))).

(** ... shifted cyclically by [-(n / 2)] along the columns and by
    [-(m / 2)] along the rows, and divided element by element by the
    sum of the kernel array. *)
Definition apply_spec_np (k x : ndarray real) : ndarray real :=
  let m := nrows k in
  let n := ncols k in
  mk2 m n (fun i j =>
    np_div (item np_zero (raw_convolved_np k x)
              (shifted_from m (- Z.of_nat (m / 2)) i)
              (shifted_from n (- Z.of_nat (n / 2)) j))
           (np_sum k)).
End Arrays.

(** ** The object store *)

(** References to Python objects.  For an ndarray the reference stands
    for its memory: the array and the views of the whole of it
    ([a[:]], [a.view()]) are one reference, and two references never
    share memory.  Views of a part of an array are outside the model. *)
Abbreviation loc := positive.

(** The arrays at [x] and [y] share no memory ([not
    np.shares_memory(x, y)]). *)
Definition shares_no_memory (x y : loc) : Prop := x <> y.

(** Modelled from the spec: the bounding rectangle of a sheet, in
    continuous units (imagen's BoundingBox is not in src). *)
Record BoundingBox (real : Type) : Type := {
  bb_left : real; bb_bottom : real; bb_right : real; bb_top : real
}.

(** Modelled from the spec: a Coordinate System, "bounding rectangle,
    x-density, y-density" (SheetCoordinateSystem is not in src). *)
Record SheetCoordinateSystem (real : Type) : Type := {
  scs_bounds : BoundingBox real;
  xdensity : real;
  ydensity : real
}.

(** Modelled from the spec: the shape families of pattern generators
    (Gaussian and Constant are not in src). *)
Inductive family : Type := Gaussian | Constant.

(** Modelled from the spec: a Kernel Specification, "a generator
    function of continuous coordinates, a continuous size parameter,
    aspect ratio", with the raster resolution that
    [set_matrix_dimensions] re-targets (PatternGenerator is not in
    src). *)
Record PatternGenerator (real : Type) : Type := {
  pg_family : family;
  pg_size : real;
  pg_aspect_ratio : real;
  pg_scale : real;
  pg_bounds : BoundingBox real;
  pg_xdensity : real;
  pg_ydensity : real
}.

(** What a reference can point to. *)
Inductive pyobj (real : Type) : Type :=
| ObjArray (a : ndarray real)
| ObjPattern (p : PatternGenerator real).
Arguments ObjArray {real} a.
Arguments ObjPattern {real} p.

(** The value of an attribute: Python's [None] or a reference. *)
Inductive pyval : Type :=
| PyNone
| PyRef (l : loc).

(** An instance of [Convolve].  [kernel = None] (Rocq's) means that the
    instance has no attribute [kernel], so that [hasattr(self, 'kernel')]
    is false; [Some PyNone] means that the attribute is bound to
    Python's [None]. *)
Record Convolve : Type := {
  kernel : option pyval;
  kernel_pattern : loc;
  init_keys : list string
}.

(** [hasattr(self, 'kernel')] *)
Definition hasattr_kernel (self : Convolve) : bool :=
  match kernel self with
  | Some _ => true
  | None => false
  end.

(** [repr] of a string without quotes or escapes, such as ['SCS']. *)
Definition repr (s : string) : string := ("'" ++ s ++ "'")%string.

(** ["Convolve has not been properly initialized with %s"
      % ','.join(repr(el) for el in self.init_keys)] *)
Definition not_initialized_msg (self : Convolve) : string :=
  ("Convolve has not been properly initialized with "
     ++ String.concat "," (map repr (init_keys self)))%string.

(** [Convolve.__init__]: [self.kernel = None], then the parameters;
    [init_keys] is the constant [['SCS']]. *)
Definition __init__ (pattern : loc) : Convolve :=
  {| kernel := Some PyNone; kernel_pattern := pattern; init_keys := ["SCS"%string] |}.

Section Operator.
Context {real cplx : Type} `{NumPy real cplx}.

(** The object a value denotes, as an argument of [np.fft.fft2]:
    [None] and the objects that are not arrays have no axes -2 and -1
    ([np.asarray] makes a 0-d array of them). *)
Definition as_array (h : gmap loc (pyobj real)) (v : pyval)
  : result (option (ndarray real)) :=
  match v with
  | PyNone => Return None
  | PyRef l =>
      match h !! l with
      | Some (ObjArray a) => Return (Some a)
      | Some (ObjPattern _) => Return None
      | None => Raise TypeError
      end
  end.

(** [Convolve.__call__(self, x)]: the outcome and the store after
    the call.  The caller's binding of [x] is not part of the result:
    the call can only change what [x] refers to. *)
Definition __call__ (self : Convolve) (x : loc) (h : gmap loc (pyobj real))
  : result unit * gmap loc (pyobj real) :=
  if negb (hasattr_kernel self) then
    (Raise (Exception (not_initialized_msg self)), h)
  else
    match h !! x, kernel self with
    | Some (ObjArray xa), Some kv =>
        match (letE k := as_array h kv in convolved k xa) with
        | Raise e => (Raise e, h)
        | Return c =>
            let h1 := <[x := ObjArray (fill_zero xa)]> h in
            match iadd (fill_zero xa) c with
            | Raise e => (Raise e, h1)
            | Return xa' => (Return tt, <[x := ObjArray xa']> h1)
            end
        end
    | _, _ => (Raise TypeError, h)
    end.

(** Modelled from the spec: [TransferFn.initialize] (not in src),
    "fails with an initialization error if invoked without a valid
    coordinate system (missing required context)": every key of
    [init_keys] must be among the keyword arguments. *)
Definition TransferFn_initialize (self : Convolve)
    (kwargs : gmap string (SheetCoordinateSystem real)) : result unit :=
  if forallb (fun key => bool_decide (is_Some (kwargs !! key))) (init_keys self)
  then Return tt else Raise InitializationError.

(** Modelled from the spec: [copy.deepcopy(obj)] of the object at
    [l] is a new object with the same value, "no aliasing with
    caller's instance". *)
Definition deepcopy (l : loc) (h : gmap loc (pyobj real))
  : result loc * gmap loc (pyobj real) :=
  match h !! l with
  | Some o => let l' := fresh (dom h) in (Return l', <[l' := o]> h)
  | None => (Raise TypeError, h)
  end.

(** Modelled from the spec: [set_matrix_dimensions(bounds, xdensity,
    ydensity)] (not in src) re-targets the raster resolution of the
    pattern it is called on. *)
Definition set_matrix_dimensions (l : loc) (b : BoundingBox real)
    (xd yd : real) (h : gmap loc (pyobj real))
  : result unit * gmap loc (pyobj real) :=
  match h !! l with
  | Some (ObjPattern p) =>
      (Return tt,
       <[l := ObjPattern {| pg_family := pg_family p; pg_size := pg_size p;
                            pg_aspect_ratio := pg_aspect_ratio p;
                            pg_scale := pg_scale p;
                            pg_bounds := b; pg_xdensity := xd;
                            pg_ydensity := yd |}]> h)
  | _ => (Raise AttributeError, h)
  end.

(** Modelled from the spec: step 3 of Kernel Preparation, what
    [Composite(generators=[Constant(scale=0, bounds=scs.bounds),
    pattern_copy], bounds=scs.bounds, xdensity=scs.xdensity,
    ydensity=scs.ydensity)()] returns: the re-targeted pattern
    rasterized on a zero background over the bounds of the
    coordinate system.  Composite is not in src and the spec leaves
    the pixel values open, so the rasterizer is a parameter. *)
Variable composite :
  PatternGenerator real -> SheetCoordinateSystem real -> ndarray real.

(** [Convolve.initialize(self, **kwargs)]: the outcome, the instance
    and the store after the call. *)
Definition initialize (self : Convolve)
    (kwargs : gmap string (SheetCoordinateSystem real))
    (h : gmap loc (pyobj real))
  : result unit * Convolve * gmap loc (pyobj real) :=
  match TransferFn_initialize self kwargs with
  | Raise e => (Raise e, self, h)
  | Return _ =>
    match kwargs !! "SCS"%string with
    | None => (Raise (KeyError "SCS"), self, h)
    | Some scs =>
      match deepcopy (kernel_pattern self) h with
      | (Raise e, h1) => (Raise e, self, h1)
      | (Return pattern_copy, h1) =>
        match h1 !! kernel_pattern self with
        | Some (ObjPattern orig) =>
          match set_matrix_dimensions pattern_copy (pg_bounds orig)
                  (xdensity scs) (ydensity scs) h1 with
          | (Raise e, h2) => (Raise e, self, h2)
          | (Return _, h2) =>
            match h2 !! pattern_copy with
            | Some (ObjPattern p) =>
                let k := fresh (dom h2) in
                (Return tt,
                 {| kernel := Some (PyRef k);
                    kernel_pattern := kernel_pattern self;
                    init_keys := init_keys self |},
                 <[k := ObjArray (composite p scs)]> h2)
            | _ => (Raise TypeError, self, h2)
            end
          end
        | _ => (Raise AttributeError, self, h1)
        end
      end
    end
  end.
End Operator.

(** ** Exact arithmetic: the reals and the complex numbers *)

Record complex : Type := Cx { Re : R; Im : R }.

Definition C0 : complex := Cx 0 0.
Definition C1 : complex := Cx 1 0.
Definition RtoC (r : R) : complex := Cx r 0.
Definition Cadd (z w : complex) : complex := Cx (Re z + Re w) (Im z + Im w).
Definition Copp (z : complex) : complex := Cx (- Re z) (- Im z).
Definition Csub (z w : complex) : complex := Cx (Re z - Re w) (Im z - Im w).
Definition Cmul (z w : complex) : complex :=
  Cx (Re z * Re w - Im z * Im w) (Re z * Im w + Im z * Re w).
Definition Cscale (r : R) (z : complex) : complex := Cx (r * Re z) (r * Im z).

(** [exp(-2 pi i k / n)], the factor of the forward transform. *)
Definition twiddle (n k : nat) : complex :=
  Cx (cos (2 * PI * INR k / INR n)) (- sin (2 * PI * INR k / INR n)).

(** [exp(+2 pi i k / n)], the factor of the inverse transform. *)
Definition twiddle_inv (n k : nat) : complex :=
  Cx (cos (2 * PI * INR k / INR n)) (sin (2 * PI * INR k / INR n)).

(** [f 0 + ... + f (n - 1)] *)
Fixpoint Csum (n : nat) (f : nat -> complex) : complex :=
  match n with
  | O => C0
  | S n' => Cadd (Csum n' f) (f n')
  end.

Fixpoint Rsum (n : nat) (f : nat -> R) : R :=
  match n with
  | O => 0%R
  | S n' => (Rsum n' f + f n')%R
  end.

Definition Cconj (z : complex) : complex := Cx (Re z) (- Im z).

(** The 1-D transforms, along one axis:
    [A[u] = sum_a a[a] * exp(-2 pi i u a / n)] and
    [a[i] = 1/n sum_u A[u] * exp(+2 pi i u i / n)]. *)
Definition dft (n : nat) (f : nat -> complex) (u : nat) : complex :=
  Csum n (fun a => Cmul (f a) (twiddle n (u * a))).

Definition idft (n : nat) (F : nat -> complex) (i : nat) : complex :=
  Cscale (/ INR n) (Csum n (fun u => Cmul (F u) (twiddle_inv n (u * i)))).

(** The 2-D discrete Fourier transform as numpy.fft documents it:
    [A[u, v] = sum_a sum_b a[a, b] * exp(-2 pi i (u a / m + v b / n))]. *)
Definition dft2 (m n : nat) (f : nat -> nat -> complex) (u v : nat) : complex :=
  Csum m (fun a => Csum n (fun b =>
    Cmul (f a b) (Cmul (twiddle m (u * a)) (twiddle n (v * b))))).

(** Its inverse:
    [a[i, j] = 1/(m n) sum_u sum_v A[u, v] * exp(+2 pi i (u i / m + v j / n))]. *)
Definition idft2 (m n : nat) (F : nat -> nat -> complex) (i j : nat) : complex :=
  Cscale (/ (INR m * INR n))
    (Csum m (fun u => Csum n (fun v =>
       Cmul (F u v) (Cmul (twiddle_inv m (u * i)) (twiddle_inv n (v * j)))))).

(** The sum of a list of reals, and of all the elements of an array. *)
Definition Rlist_sum (l : list R) : R := fold_right Rplus 0%R l.
Definition array_sum (a : ndarray R) : R := Rlist_sum (concat a).

(** NumPy in exact arithmetic: no rounding, no overflow, no signed
    zero.  [Rdiv] is total ([x / 0] is [0] in Rocq) where NumPy gives
    an infinity or a NaN, so statements over this instance are about
    exact arithmetic and, where they depend on the division, about
    kernel arrays whose sum is not zero. *)
#[export] Instance exact_numpy : NumPy R complex := {|
  np_zero := 0%R;
  np_czero := C0;
  np_add := Rplus;
  np_div := Rdiv;
  np_cmul := Cmul;
  np_re := Re;
  np_sum := array_sum;
  np_dft2 := fun a => dft2 (nrows a) (ncols a) (fun i j => RtoC (item 0%R a i j));
  np_idft2 := fun a => idft2 (nrows a) (ncols a) (item C0 a)
|}.

(** The result of Apply in the words of the spec: the real part of the
    inverse transform of the product of the transforms of the field
    and of the kernel array, shifted cyclically by [-(n / 2)] along the
    columns and by [-(m / 2)] along the rows, where (m, n) is the shape
    of the kernel array, and divided by the sum of the kernel array. *)
Definition raw_convolved_spec (k x : ndarray R) (i j : nat) : R :=
  let m := nrows k in
  let n := ncols k in
  Re (idft2 m n (fun u v =>
        Cmul (dft2 m n (fun a b => RtoC (item 0%R x a b)) u v)
             (dft2 m n (fun a b => RtoC (item 0%R k a b)) u v)) i j).

Definition apply_spec (k x : ndarray R) : ndarray R :=
  let m := nrows k in
  let n := ncols k in
  mk2 m n (fun i j =>
    (raw_convolved_spec k x
       (shifted_from m (- Z.of_nat (m / 2)) i)
       (shifted_from n (- Z.of_nat (n / 2)) j)
     / array_sum k)%R).

(** [k] has shape (m, n), the entry 1 at (r, c) and 0 everywhere else. *)
Definition impulse_at (m n r c : nat) (k : ndarray R) : Prop :=
  has_shape m n k
  /\ forall i j, i < m -> j < n ->
       item 0%R k i j = if (i =? r) && (j =? c) then 1%R else 0%R.

(** The unit impulse at the centre cell of an array of shape (m, n). *)
Definition centre_impulse (m n : nat) : ndarray R :=
  mk2 m n (fun i j => if (i =? m / 2) && (j =? n / 2) then 1%R else 0%R).

(** ** IEEE-754 binary64 *)

Definition float64 : Type := spec_float.
Definition complex128 : Type := (float64 * float64)%type.

Definition f64_add : float64 -> float64 -> float64 := SFadd 53 1024.
Definition f64_sub : float64 -> float64 -> float64 := SFsub 53 1024.
Definition f64_mul : float64 -> float64 -> float64 := SFmul 53 1024.
Definition f64_div : float64 -> float64 -> float64 := SFdiv 53 1024.

Definition c128_mul (z w : complex128) : complex128 :=
  (f64_sub (f64_mul (fst z) (fst w)) (f64_mul (snd z) (snd w)),
   f64_add (f64_mul (fst z) (snd w)) (f64_mul (snd z) (fst w))).

Definition is_zero (v : float64) : bool :=
  match v with S754_zero _ => true | _ => false end.

(** [np.isinf(v) or np.isnan(v)] *)
Definition is_inf_or_nan (v : float64) : bool :=
  match v with S754_infinity _ | S754_nan => true | _ => false end.

(** NumPy on float64 arrays.  The rounding of the FFT kernels and the
    summation order of [ndarray.sum] are not fixed by NumPy's
    documentation: they are parameters. *)
Definition float64_numpy
    (sum : ndarray float64 -> float64)
    (dft : ndarray float64 -> nat -> nat -> complex128)
    (idft : ndarray complex128 -> nat -> nat -> complex128)
  : NumPy float64 complex128 := {|
  np_zero := S754_zero false;
  np_czero := (S754_zero false, S754_zero false);
  np_add := f64_add;
  np_div := f64_div;
  np_cmul := c128_mul;
  np_re := fst;
  np_sum := sum;
  np_dft2 := dft;
  np_idft2 := idft
|}.

(** ** Circular convolution *)

(** The circular convolution of the field [x] with the kernel array
    [k], both of shape (m, n), at (i, j):
    [sum_a sum_b x[a, b] * k[(i - a) mod m, (j - b) mod n]]. *)
Definition circ_conv (m n : nat) (k x : ndarray R) (i j : nat) : R :=
  Rsum m (fun a => Rsum n (fun b =>
    (item 0%R x a b
     * item 0%R k ((i + (m - a)) mod m) ((j + (n - b)) mod n))%R)).

(** [np.roll(np.roll(a, c, axis=-1), r, axis=-2)]: the array moved by
    [r] rows and [c] columns, cyclically. *)
Definition shifted (r c : nat) (a : ndarray R) : ndarray R :=
  roll_rows (Z.of_nat r) (roll_cols (Z.of_nat c) a).


(** ** The transforms of arrays of shape (2, 2) in binary64 *)

(** On an axis of length 2 the factors of the transform are 1 and -1:
    the transform is one butterfly per axis, [a0 + a1] and [a0 - a1],
    the last axis first, each operation rounded; the inverse halves
    after each axis.  These are the operations NumPy's FFT performs on
    arrays of shape (2, 2); the definitions are used on such arrays
    only. *)
Definition c128_add (z w : complex128) : complex128 :=
  (f64_add (fst z) (fst w), f64_add (snd z) (snd w)).
Definition c128_sub (z w : complex128) : complex128 :=
  (f64_sub (fst z) (fst w), f64_sub (snd z) (snd w)).

Definition f64_half : float64 := S754_finite false 4503599627370496 (-53).
Definition c128_half (z : complex128) : complex128 :=
  (f64_mul f64_half (fst z), f64_mul f64_half (snd z)).

Definition butterfly_2x2 (scale : complex128 -> complex128)
    (a : nat -> nat -> complex128) (u v : nat) : complex128 :=
  let row i :=
    scale (if v =? 0 then c128_add (a i 0) (a i 1)
           else c128_sub (a i 0) (a i 1)) in
  scale (if u =? 0 then c128_add (row 0) (row 1)
         else c128_sub (row 0) (row 1)).

Definition f64_dft_2x2 (a : ndarray float64) (u v : nat) : complex128 :=
  butterfly_2x2 (fun z => z)
    (fun i j => (item (S754_zero false) a i j, S754_zero false)) u v.

Definition f64_idft_2x2 (a : ndarray complex128) (i j : nat) : complex128 :=
  butterfly_2x2 c128_half
    (item (S754_zero false, S754_zero false) a) i j.

(** [ndarray.sum()] of a small array: the elements added in order. *)
Definition f64_sum_in_order (a : ndarray float64) : float64 :=
  fold_left f64_add (concat a) (S754_zero false).

(** ** Sample stores *)

(** An operator whose kernel array is the object at reference 1. *)
Definition prepared_operator : Convolve :=
  {| kernel := Some (PyRef 1%positive);
     kernel_pattern := 3%positive;
     init_keys := ["SCS"%string] |}.

(** A store with the kernel array [k] at reference 1 and the field
    [xa] at reference 2. *)
Definition sample_store {real : Type} (k xa : ndarray real)
  : gmap loc (pyobj real) :=
  <[2%positive := ObjArray xa]> {[ 1%positive := ObjArray k ]}.

(** A left-to-right sum, a transform that pads with a zero imaginary
    part and an inverse that copies: stand-ins for the binary64
    parameters. *)
Definition f64_zero : float64 := S754_zero false.
Definition f64_one : float64 := S754_finite false 4503599627370496 (-52).
Definition sample_sum (a : ndarray float64) : float64 :=
  fold_right f64_add f64_zero (concat a).
Definition sample_dft (a : ndarray float64) (u v : nat) : complex128 :=
  (item f64_zero a u v, f64_zero).
Definition sample_idft (a : ndarray complex128) (i j : nat) : complex128 :=
  item (f64_zero, f64_zero) a i j.

(** A Gaussian kernel specification, a coordinate system and a
    rasterizer with one pixel. *)
Definition sample_pattern : PatternGenerator R :=
  {| pg_family := Gaussian; pg_size := 1%R; pg_aspect_ratio := 1%R;
     pg_scale := 1%R;
     pg_bounds := {| bb_left := 0%R; bb_bottom := 0%R;
                     bb_right := 1%R; bb_top := 1%R |};
     pg_xdensity := 1%R; pg_ydensity := 1%R |}.
Definition sample_scs : SheetCoordinateSystem R :=
  {| scs_bounds := {| bb_left := 0%R; bb_bottom := 0%R;
                      bb_right := 1%R; bb_top := 1%R |};
     xdensity := 1%R; ydensity := 1%R |}.
Definition sample_composite
    (p : PatternGenerator R) (scs : SheetCoordinateSystem R) : ndarray R :=
  [[pg_scale p]].

(** * Properties *)

(** ** Arrays *)

Section ArrayFacts.
Context {A : Type}.
Implicit Types (a : ndarray A) (l : list A) (f g : nat -> nat -> A).

Lemma nrows_mk2 m n f : nrows (mk2 m n f) = m.
Proof. unfold nrows, mk2. now rewrite length_map, length_seq. Qed.

Lemma ncols_mk2 m n f : 0 < m -> ncols (mk2 m n f) = n.
Proof.
  intros Hm. unfold ncols, mk2. destruct m as [|m]; [lia|].
  cbn [seq map hd]. now rewrite length_map, length_seq.
Qed.

Lemma has_shape_mk2 m n f : has_shape m n (mk2 m n f).
Proof.
  split; [apply nrows_mk2|].
  unfold mk2. apply List.Forall_forall. intros r Hr.
  apply in_map_iff in Hr as (i & <- & _).
  now rewrite length_map, length_seq.
Qed.

Lemma item_mk2 (d : A) m n f i j :
  i < m -> j < n -> item d (mk2 m n f) i j = f i j.
Proof.
  intros Hi Hj. unfold item, mk2.
  rewrite (nth_indep _ [] (map (f 0) (seq 0 n)))
    by now rewrite length_map, length_seq.
  rewrite (map_nth (fun i => map (f i) (seq 0 n)) (seq 0 m) 0 i).
  rewrite seq_nth by assumption. cbn [Nat.add].
  rewrite (nth_indep _ d (f i 0)) by now rewrite length_map, length_seq.
  rewrite (map_nth (f i) (seq 0 n) 0 j).
  now rewrite seq_nth.
Qed.

Lemma mk2_ext m n f g :
  (forall i j, i < m -> j < n -> f i j = g i j) -> mk2 m n f = mk2 m n g.
Proof.
  intros Hfg. unfold mk2. apply map_ext_in. intros i Hi.
  apply map_ext_in. intros j Hj.
  apply in_seq in Hi, Hj. apply Hfg; lia.
Qed.

Lemma has_shape_ncols m n a : has_shape m n a -> 0 < m -> ncols a = n.
Proof.
  intros [Hm Hn] Hpos. unfold ncols. destruct a as [|r a]; cbn in *; [lia|].
  now inversion Hn.
Qed.

Lemma has_shape_nrows m n a : has_shape m n a -> nrows a = m.
Proof. now intros [Hm _]. Qed.

Lemma has_shape_row m n a i :
  has_shape m n a -> i < m -> length (nth i a []) = n.
Proof.
  intros [Hm Hn] Hi. rewrite List.Forall_forall in Hn.
  apply Hn, nth_In. lia.
Qed.

(** An array is the table of its items. *)
Lemma mk2_item (d : A) m n a : has_shape m n a -> mk2 m n (item d a) = a.
Proof.
  intros Ha. apply (nth_ext _ _ [] []).
  - pose proof (has_shape_nrows Ha) as Hm. pose proof (nrows_mk2 m n (item d a)).
    unfold nrows in *. congruence.
  - intros i Hi. pose proof (nrows_mk2 m n (item d a)) as Hm.
    unfold nrows in Hm. rewrite Hm in Hi.
    apply (nth_ext _ _ d d).
    + rewrite (has_shape_row Ha Hi).
      exact (has_shape_row (has_shape_mk2 m n (item d a)) Hi).
    + intros j Hj.
      rewrite (has_shape_row (has_shape_mk2 m n (item d a)) Hi) in Hj.
      exact (item_mk2 d (item d a) Hi Hj).
Qed.

Lemma length_roll s l : length (roll s l) = length l.
Proof.
  unfold roll. rewrite length_app, length_skipn, length_firstn. lia.
Qed.

(** Where the entries of a rolled sequence come from. *)
Lemma nth_roll (d : A) s l i :
  i < length l -> nth i (roll s l) d = nth (shifted_from (length l) s i) l d.
Proof.
  intros Hi. unfold roll, shifted_from.
  set (n := length l) in *.
  assert (Hn : (0 < Z.of_nat n)%Z) by lia.
  pose proof (Z.mod_pos_bound (- s) (Z.of_nat n) Hn) as Hk.
  set (k := Z.to_nat ((- s) mod Z.of_nat n)).
  assert (Hkn : k < n) by (unfold k; lia).
  assert (Hidx : Z.to_nat ((Z.of_nat i - s) mod Z.of_nat n)
                 = if i <? n - k then i + k else i - (n - k)).
  { replace (Z.of_nat i - s)%Z with (Z.of_nat i + - s)%Z by lia.
    rewrite <- Zplus_mod_idemp_r.
    replace ((- s) mod Z.of_nat n)%Z with (Z.of_nat k) by (unfold k; lia).
    destruct (Nat.ltb_spec i (n - k)).
    - rewrite Z.mod_small by lia. lia.
    - replace (Z.of_nat i + Z.of_nat k)%Z
        with (Z.of_nat (i - (n - k)) + 1 * Z.of_nat n)%Z by lia.
      rewrite Z_mod_plus_full, Z.mod_small by lia. lia. }
  rewrite Hidx.
  destruct (Nat.ltb_spec i (n - k)).
  - rewrite app_nth1 by (rewrite length_skipn; fold n; lia).
    rewrite nth_skipn. f_equal. lia.
  - rewrite app_nth2 by (rewrite length_skipn; fold n; lia).
    rewrite length_skipn. fold n. rewrite nth_firstn.
    destruct (Nat.ltb_spec (i - (n - k)) k); [reflexivity | lia].
Qed.
End ArrayFacts.

Lemma roll_map {A B} (f : A -> B) s (l : list A) :
  roll s (map f l) = map f (roll s l).
Proof.
  unfold roll. rewrite length_map, map_app.
  now rewrite <- List.skipn_map, <- List.firstn_map.
Qed.

(** C9: for every 2-D array and every pair of shifts, rolling along
    the columns and then along the rows equals rolling along the rows
    and then along the columns. *)
Theorem roll_axes_commute {A} (s_rows s_cols : Z) (a : ndarray A) :
  roll_rows s_rows (roll_cols s_cols a) = roll_cols s_cols (roll_rows s_rows a).
Proof. unfold roll_rows, roll_cols. apply roll_map. Qed.

Lemma has_shape_map {A B} (f : A -> B) m n (a : ndarray A) :
  has_shape m n a -> has_shape m n (map (map f) a).
Proof.
  intros [Hm Hn]. split; [now rewrite length_map|].
  apply List.Forall_forall. intros r Hr.
  apply in_map_iff in Hr as (r' & <- & Hr').
  rewrite length_map. rewrite List.Forall_forall in Hn. now apply Hn.
Qed.

Lemma item_map {A B} (f : A -> B) (d : A) (e : B) m n (a : ndarray A) i j :
  has_shape m n a -> i < m -> j < n ->
  item e (map (map f) a) i j = f (item d a i j).
Proof.
  intros Ha Hi Hj. unfold item.
  rewrite (nth_indep _ [] (map f [])) by (rewrite length_map; destruct Ha; lia).
  rewrite map_nth.
  rewrite (nth_indep _ e (f d))
    by (rewrite length_map, (has_shape_row Ha Hi); exact Hj).
  apply map_nth.
Qed.

Lemma has_shape_roll_cols {A} s m n (a : ndarray A) :
  has_shape m n a -> has_shape m n (roll_cols s a).
Proof.
  intros [Hm Hn]. split; [unfold roll_cols; now rewrite length_map|].
  apply List.Forall_forall. intros r Hr.
  apply in_map_iff in Hr as (r' & <- & Hr').
  rewrite length_roll. rewrite List.Forall_forall in Hn. now apply Hn.
Qed.

Lemma has_shape_roll_rows {A} s m n (a : ndarray A) :
  has_shape m n a -> has_shape m n (roll_rows s a).
Proof.
  intros [Hm Hn]. split; [unfold roll_rows; now rewrite length_roll|].
  apply List.Forall_forall. intros r Hr.
  rewrite List.Forall_forall in Hn. apply Hn.
  unfold roll_rows, roll in Hr.
  set (k := Z.to_nat _) in Hr. rewrite <- (firstn_skipn k a).
  apply in_or_app. apply in_app_or in Hr. tauto.
Qed.

Lemma shifted_from_lt n s i : 0 < n -> shifted_from n s i < n.
Proof.
  intros Hn. unfold shifted_from.
  pose proof (Z.mod_pos_bound (Z.of_nat i - s) (Z.of_nat n)). lia.
Qed.

(** The entries of an array rolled along both axes. *)
Lemma item_roll_rows_cols {A} (d : A) sr sc m n (a : ndarray A) i j :
  has_shape m n a -> i < m -> j < n ->
  item d (roll_rows sr (roll_cols sc a)) i j
  = item d a (shifted_from m sr i) (shifted_from n sc j).
Proof.
  intros Ha Hi Hj. unfold item, roll_rows.
  pose proof (has_shape_roll_cols sc Ha) as Hc.
  rewrite nth_roll by (destruct Hc; lia).
  replace (length (roll_cols sc a)) with m by (destruct Hc; lia).
  assert (Hi' : shifted_from m sr i < m) by (apply shifted_from_lt; lia).
  unfold roll_cols.
  rewrite (nth_indep _ [] (roll sc [])) by (rewrite length_map; destruct Ha; lia).
  rewrite map_nth.
  rewrite nth_roll by (rewrite (has_shape_row Ha Hi'); exact Hj).
  now rewrite (has_shape_row Ha Hi').
Qed.

Lemma Forall_mk2 {A} (P : A -> Prop) m n (f : nat -> nat -> A) :
  (forall i j, i < m -> j < n -> P (f i j)) ->
  Forall (Forall P) (mk2 m n f).
Proof.
  intros HP. unfold mk2. apply List.Forall_forall. intros r Hr.
  apply in_map_iff in Hr as (i & <- & Hi). apply in_seq in Hi.
  apply List.Forall_forall. intros v Hv.
  apply in_map_iff in Hv as (j & <- & Hj). apply in_seq in Hj.
  apply HP; lia.
Qed.

Lemma broadcast_dim_refl m : broadcast_dim m m = Some m.
Proof. unfold broadcast_dim. now rewrite Nat.eqb_refl. Qed.

Lemma bidx_lt m i : i < m -> bidx m i = i.
Proof.
  intros Hi. unfold bidx. destruct (Nat.eqb_spec m 1); [lia | reflexivity].
Qed.

(** ** [Convolve.__call__] on a field of the shape of the kernel array *)

Section CallFacts.
Context {real cplx : Type} `{NumPy real cplx}.
Implicit Types (k xa : ndarray real) (h : gmap loc (pyobj real)).

Lemma fft2_shape m n xa :
  has_shape m n xa -> 0 < m -> 0 < n ->
  fft2 (Some xa) = Return (mk2 m n (np_dft2 xa)).
Proof.
  intros Ha Hm Hn. unfold fft2.
  rewrite (has_shape_nrows Ha), (has_shape_ncols Ha Hm).
  destruct (Nat.eqb_spec m 0); [lia|]. destruct (Nat.eqb_spec n 0); [lia|].
  reflexivity.
Qed.

Lemma has_shape_same_shape_raw m n k xa : has_shape m n (same_shape_raw m n k xa).
Proof. apply has_shape_map, has_shape_mk2. Qed.

Lemma multiply_same_shape m n (f g : nat -> nat -> cplx) :
  0 < m ->
  multiply (mk2 m n f) (mk2 m n g)
  = Return (mk2 m n (fun u v => np_cmul (f u v) (g u v))).
Proof.
  intros Hm. unfold multiply.
  rewrite !nrows_mk2, !(ncols_mk2 _ _ Hm), !broadcast_dim_refl.
  f_equal. apply mk2_ext. intros i j Hi Hj.
  rewrite !(bidx_lt Hi), !(bidx_lt Hj).
  now rewrite !(item_mk2 _ _ Hi Hj).
Qed.

Lemma ifft2_shape m n (f : nat -> nat -> cplx) :
  0 < m -> 0 < n ->
  ifft2 (mk2 m n f) = Return (mk2 m n (np_idft2 (mk2 m n f))).
Proof.
  intros Hm Hn. unfold ifft2. rewrite nrows_mk2, (ncols_mk2 _ _ Hm).
  destruct (Nat.eqb_spec m 0); [lia|]. destruct (Nat.eqb_spec n 0); [lia|].
  reflexivity.
Qed.

Lemma convolved_same_shape m n k xa :
  has_shape m n k -> has_shape m n xa -> 0 < m -> 0 < n ->
  convolved (Some k) xa
  = Return (divide (roll_rows (- Z.of_nat (m / 2))
                      (roll_cols (- Z.of_nat (n / 2)) (same_shape_raw m n k xa)))
                   (np_sum k)).
Proof.
  intros Hk Hx Hm Hn. unfold convolved.
  rewrite (fft2_shape Hx Hm Hn), (fft2_shape Hk Hm Hn). cbn [bind].
  rewrite multiply_same_shape by exact Hm. cbn [bind].
  rewrite ifft2_shape by assumption. cbn [bind].
  now rewrite (has_shape_nrows Hk), (has_shape_ncols Hk Hm).
Qed.

Lemma call_same_shape (self : Convolve) x kl h m n k xa :
  kernel self = Some (PyRef kl) ->
  h !! kl = Some (ObjArray k) -> h !! x = Some (ObjArray xa) ->
  has_shape m n k -> has_shape m n xa -> 0 < m -> 0 < n ->
  __call__ self x h = (Return tt, <[x := ObjArray (same_shape_contents m n k xa)]> h).
Proof.
  intros Hself Hkl Hxl Hk Hx Hm Hn. unfold __call__, hasattr_kernel.
  rewrite Hself, Hxl. cbn [negb as_array]. rewrite Hkl. cbn [bind].
  rewrite (convolved_same_shape Hk Hx Hm Hn).
  set (raw := same_shape_raw m n k xa).
  set (c := divide _ _).
  assert (Hc : has_shape m n c).
  { apply has_shape_map, has_shape_roll_rows, has_shape_roll_cols,
      has_shape_same_shape_raw. }
  assert (Hf : has_shape m n (fill_zero xa)) by now apply has_shape_map.
  unfold iadd.
  rewrite (has_shape_nrows Hf), (has_shape_ncols Hf Hm),
    (has_shape_nrows Hc), (has_shape_ncols Hc Hm), !broadcast_dim_refl,
    !Nat.eqb_refl.
  cbn [andb]. rewrite insert_insert_eq. do 3 f_equal.
  apply mk2_ext. intros i j Hi Hj.
  rewrite (bidx_lt Hi), (bidx_lt Hj).
  unfold fill_zero. rewrite (item_map _ np_zero np_zero Hx Hi Hj).
  f_equal. unfold c, divide.
  rewrite (item_map _ np_zero np_zero
             (has_shape_roll_rows _ (has_shape_roll_cols _
                (has_shape_same_shape_raw m n k xa))) Hi Hj).
  f_equal. apply item_roll_rows_cols; auto using has_shape_same_shape_raw.
Qed.
End CallFacts.

(** ** The store around a call *)

Section StoreFacts.
Context {real cplx : Type} `{NumPy real cplx}.
Implicit Types (k xa : ndarray real) (h : gmap loc (pyobj real)).

Lemma has_shape_iadd m n xa c xa' :
  has_shape m n xa -> iadd xa c = Return xa' -> has_shape m n xa'.
Proof.
  intros Hx. unfold iadd.
  destruct (broadcast_dim _ _) as [m'|]; [|discriminate].
  destruct (broadcast_dim _ _) as [n'|]; [|discriminate].
  destruct (Nat.eqb_spec m' (nrows xa)) as [->|]; [|discriminate].
  destruct (Nat.eqb_spec n' (ncols xa)) as [->|]; [|discriminate].
  cbn [andb]. intros [= <-].
  rewrite (has_shape_nrows Hx).
  destruct (Nat.eq_dec m 0) as [->|Hm]; [split; [reflexivity | constructor]|].
  rewrite (has_shape_ncols Hx) by lia. apply has_shape_mk2.
Qed.

(** Whatever the outcome, a call writes to the field only, and the
    field keeps its shape. *)
Lemma call_writes_field (self : Convolve) x h m n xa :
  h !! x = Some (ObjArray xa) -> has_shape m n xa ->
  exists xa', snd (__call__ self x h) = <[x := ObjArray xa']> h
              /\ has_shape m n xa'.
Proof.
  intros Hxl Hx. unfold __call__.
  destruct (negb (hasattr_kernel self)).
  { exists xa. cbn [snd]. now rewrite insert_id. }
  rewrite Hxl. destruct (kernel self) as [kv|].
  2:{ exists xa. cbn [snd]. now rewrite insert_id. }
  destruct (bind _ _) as [c|e].
  2:{ exists xa. cbn [snd]. now rewrite insert_id. }
  destruct (iadd (fill_zero xa) c) as [xa'|e] eqn:Hadd; cbn [snd].
  - exists xa'. rewrite insert_insert_eq. split; [reflexivity|].
    eapply has_shape_iadd; [|exact Hadd]. now apply has_shape_map.
  - exists (fill_zero xa). split; [reflexivity|]. now apply has_shape_map.
Qed.

(** A call leaves every other object of the store as it was. *)
Lemma call_frame (self : Convolve) x h (y : loc) :
  y <> x -> snd (__call__ self x h) !! y = h !! y.
Proof.
  intros Hy. unfold __call__.
  destruct (negb (hasattr_kernel self)); [reflexivity|].
  destruct (h !! x) as [[xa|p]|]; try reflexivity.
  destruct (kernel self) as [kv|]; [|reflexivity].
  destruct (bind _ _) as [c|e]; [|reflexivity].
  destruct (iadd (fill_zero xa) c) as [xa'|e]; cbn [snd];
    now rewrite ?lookup_insert_ne by congruence.
Qed.

(** The outcome and the new contents of the field are a function of
    the contents of the kernel array and of the field. *)
Lemma call_contents (self : Convolve) x kl h k xa :
  kernel self = Some (PyRef kl) ->
  h !! kl = Some (ObjArray k) -> h !! x = Some (ObjArray xa) ->
  __call__ self x h
  = match convolved (Some k) xa with
    | Raise e => (Raise e, h)
    | Return c =>
        match iadd (fill_zero xa) c with
        | Raise e => (Raise e, <[x := ObjArray (fill_zero xa)]> h)
        | Return xa' => (Return tt, <[x := ObjArray xa']> h)
        end
    end.
Proof.
  intros Hself Hkl Hxl. unfold __call__, hasattr_kernel.
  rewrite Hself, Hxl. cbn [negb as_array]. rewrite Hkl. cbn [bind].
  destruct (convolved (Some k) xa) as [c|e]; [|reflexivity].
  destruct (iadd (fill_zero xa) c); [|reflexivity].
  now rewrite insert_insert_eq.
Qed.

(** With [self.kernel] bound to Python's [None] the guard of
    [__call__] is passed and [np.fft.fft2(None)] raises. *)
Lemma call_kernel_None (self : Convolve) x h m n xa :
  kernel self = Some PyNone ->
  h !! x = Some (ObjArray xa) -> has_shape m n xa -> 0 < m -> 0 < n ->
  __call__ self x h = (Raise IndexError, h).
Proof.
  intros Hself Hxl Hx Hm Hn. unfold __call__, hasattr_kernel.
  rewrite Hself, Hxl. cbn [negb as_array bind]. unfold convolved.
  now rewrite (fft2_shape Hx Hm Hn).
Qed.

(** Without the attribute the guard raises the message that names
    the keys of [init_keys], and the store is left alone. *)
Lemma call_without_attribute (self : Convolve) x h :
  kernel self = None ->
  __call__ self x h = (Raise (Exception (not_initialized_msg self)), h).
Proof. intros Hself. unfold __call__, hasattr_kernel. now rewrite Hself. Qed.
End StoreFacts.

(** A call that returns has written [0.0 + convolved] to the field. *)
Lemma call_returns {real cplx : Type} `{NumPy real cplx}
    (self : Convolve) (x : loc) (h : gmap loc (pyobj real)) (xa : ndarray real) :
  h !! x = Some (ObjArray xa) ->
  fst (__call__ self x h) = Return tt ->
  exists kv k c xa',
    kernel self = Some kv /\ as_array h kv = Return k
    /\ convolved k xa = Return c
    /\ iadd (fill_zero xa) c = Return xa'
    /\ snd (__call__ self x h) = <[x := ObjArray xa']> h.
Proof.
  intros Hxl. unfold __call__.
  destruct (negb (hasattr_kernel self)); [discriminate|].
  rewrite Hxl. destruct (kernel self) as [kv|]; [|discriminate].
  destruct (as_array h kv) as [k|e] eqn:Hk; cbn [bind]; [|discriminate].
  destruct (convolved k xa) as [c|e] eqn:Hc; [|discriminate].
  destruct (iadd (fill_zero xa) c) as [xa'|e] eqn:Hadd; [|discriminate].
  cbn [fst snd]. intros _. exists kv, k, c, xa'.
  rewrite insert_insert_eq. auto.
Qed.

(** C5: for every field of shape (m, n), whatever the outcome of
    Apply, the store differs from the one before at the reference of
    the field only, where an array of shape (m, n) is found; no object
    is added, and the new contents are read through every reference
    that is an alias of the field.  When Apply returns, these contents
    are what [x += convolved] leaves in the zero-filled field; for a
    prepared operator whose kernel array has the shape of the field,
    Apply returns and the contents are [0.0 + convolved], element by
    element. *)
Theorem call_in_place {real cplx : Type} `{NumPy real cplx}
    (self : Convolve) (x : loc) (h : gmap loc (pyobj real)) m n xa :
  h !! x = Some (ObjArray xa) -> has_shape m n xa ->
  exists xa',
    has_shape m n xa'
    /\ snd (__call__ self x h) = <[x := ObjArray xa']> h
    /\ dom (snd (__call__ self x h)) = dom h
    /\ (forall alias : loc, alias = x ->
          snd (__call__ self x h) !! alias = Some (ObjArray xa'))
    /\ (fst (__call__ self x h) = Return tt ->
        exists kv k c,
          kernel self = Some kv /\ as_array h kv = Return k
          /\ convolved k xa = Return c
          /\ iadd (fill_zero xa) c = Return xa')
    /\ (forall (kl : loc) (k : ndarray real),
          kernel self = Some (PyRef kl) -> h !! kl = Some (ObjArray k) ->
          has_shape m n k -> 0 < m -> 0 < n ->
          exists c,
            convolved (Some k) xa = Return c
            /\ fst (__call__ self x h) = Return tt
            /\ xa' = mk2 m n (fun i j =>
                       np_add np_zero (item np_zero c i j))).
Proof.
  intros Hxl Hx.
  destruct (call_writes_field self x h Hxl Hx) as (xa' & Hh & Hs).
  assert (Hread : forall ya, snd (__call__ self x h) = <[x := ObjArray ya]> h
                             -> ya = xa').
  { intros ya Hya. rewrite Hh in Hya.
    apply (f_equal (fun s => s !! x)) in Hya.
    rewrite !lookup_insert_eq in Hya. congruence. }
  exists xa'. split; [assumption|]. split; [exact Hh|]. split; [|split; [|split]].
  - rewrite Hh, dom_insert_L. apply subseteq_union_1_L, singleton_subseteq_l.
    eapply elem_of_dom_2, Hxl.
  - intros alias ->. rewrite Hh. apply lookup_insert_eq.
  - intros Hret.
    destruct (@call_returns _ _ _ self x h xa Hxl Hret)
      as (kv & k & c & ya & Hkv & Hk & Hc & Hadd & Hya).
    exists kv, k, c. rewrite <- (Hread ya Hya). auto.
  - intros kl k Hself Hkl Hk Hm Hn.
    pose proof (call_contents self x h Hself Hkl Hxl) as Hcall.
    pose proof (convolved_same_shape Hk Hx Hm Hn) as Hc.
    rewrite Hc in Hcall.
    set (c := divide _ _) in *.
    assert (Hcs : has_shape m n c).
    { apply has_shape_map, has_shape_roll_rows, has_shape_roll_cols,
        has_shape_same_shape_raw. }
    assert (Hadd : iadd (fill_zero xa) c
                   = Return (mk2 m n (fun i j =>
                               np_add np_zero (item np_zero c i j)))).
    { assert (Hf : has_shape m n (fill_zero xa)) by now apply has_shape_map.
      unfold iadd.
      rewrite (has_shape_nrows Hf), (has_shape_ncols Hf Hm),
        (has_shape_nrows Hcs), (has_shape_ncols Hcs Hm), !broadcast_dim_refl,
        !Nat.eqb_refl.
      cbn [andb]. f_equal. apply mk2_ext. intros i j Hi Hj.
      rewrite (bidx_lt Hi), (bidx_lt Hj).
      unfold fill_zero. now rewrite (item_map _ np_zero np_zero Hx Hi Hj). }
    rewrite Hadd in Hcall.
    exists c. split; [exact Hc|]. split; [now rewrite Hcall|].
    symmetry. apply Hread. now rewrite Hcall.
Qed.

(** C8: two calls, in any two stores, on kernel arrays of equal
    contents and fields of equal contents have the same outcome and
    leave equal contents in their fields. *)
Theorem call_deterministic {real cplx : Type} `{NumPy real cplx}
    (self1 self2 : Convolve) (x1 x2 kl1 kl2 : loc)
    (h1 h2 : gmap loc (pyobj real)) (k xa : ndarray real) :
  kernel self1 = Some (PyRef kl1) -> kernel self2 = Some (PyRef kl2) ->
  h1 !! kl1 = Some (ObjArray k) -> h2 !! kl2 = Some (ObjArray k) ->
  h1 !! x1 = Some (ObjArray xa) -> h2 !! x2 = Some (ObjArray xa) ->
  fst (__call__ self1 x1 h1) = fst (__call__ self2 x2 h2)
  /\ snd (__call__ self1 x1 h1) !! x1 = snd (__call__ self2 x2 h2) !! x2.
Proof.
  intros Hs1 Hs2 Hk1 Hk2 Hx1 Hx2.
  rewrite (call_contents _ _ _ Hs1 Hk1 Hx1), (call_contents _ _ _ Hs2 Hk2 Hx2).
  destruct (convolved (Some k) xa) as [c|e]; cbn [fst snd].
  - destruct (iadd (fill_zero xa) c); cbn [fst snd];
      now rewrite !lookup_insert_eq.
  - split; [reflexivity | congruence].
Qed.

(** ** Kernel Preparation *)

Section InitializeFacts.
Context {real : Type}.
Variable composite :
  PatternGenerator real -> SheetCoordinateSystem real -> ndarray real.
Implicit Types (h : gmap loc (pyobj real)).

Lemma fresh_lookup_ne h (l : loc) o : h !! l = Some o -> fresh (dom h) <> l.
Proof.
  intros Hl Heq. apply elem_of_dom_2 in Hl.
  rewrite <- Heq in Hl. exact (is_fresh (dom h) Hl).
Qed.

Lemma set_matrix_dimensions_frame l b xd yd h r h2 (y : loc) :
  set_matrix_dimensions l b xd yd h = (r, h2) -> y <> l -> h2 !! y = h !! y.
Proof.
  unfold set_matrix_dimensions.
  destruct (h !! l) as [[a|p]|]; intros [= <- <-] Hy; try reflexivity.
  now rewrite lookup_insert_ne by congruence.
Qed.

End InitializeFacts.

(** C6: Preparation works on a deep copy.  Whatever its outcome, the
    object that the caller's kernel specification refers to is the
    same after [initialize] as before; and when [initialize] returns,
    the stored kernel array is an array object of its own: rebinding
    the contents of the caller's specification to anything afterwards
    leaves the contents of the stored kernel array as they were. *)
Theorem initialize_deep_copy {real : Type}
    (composite : PatternGenerator real -> SheetCoordinateSystem real -> ndarray real)
    (self : Convolve) (kwargs : gmap string (SheetCoordinateSystem real))
    (h : gmap loc (pyobj real)) :
  let r := fst (fst (initialize composite self kwargs h)) in
  let self' := snd (fst (initialize composite self kwargs h)) in
  let h' := snd (initialize composite self kwargs h) in
  h' !! kernel_pattern self = h !! kernel_pattern self
  /\ (r = Return tt ->
      exists kl karr,
        kernel self' = Some (PyRef kl)
        /\ h' !! kl = Some (ObjArray karr)
        /\ forall o : pyobj real,
             <[kernel_pattern self := o]> h' !! kl = Some (ObjArray karr)).
Proof.
  cbv zeta. unfold initialize.
  destruct (TransferFn_initialize self kwargs) as [[]|e];
    [|split; [reflexivity | discriminate]].
  destruct (kwargs !! "SCS"%string) as [scs|];
    [|split; [reflexivity | discriminate]].
  destruct (deepcopy (kernel_pattern self) h) as [[l'|e] h1] eqn:Hcopy.
  2:{ cbn [fst snd]. split; [|discriminate].
      unfold deepcopy in Hcopy.
      destruct (h !! kernel_pattern self) eqn:E; inversion Hcopy; subst.
      congruence. }
  assert (Hkp : exists o, h !! kernel_pattern self = Some o
                          /\ l' = fresh (dom h) /\ h1 = <[l' := o]> h).
  { unfold deepcopy in Hcopy. destruct (h !! kernel_pattern self) as [o|];
      inversion Hcopy; subst; eauto. }
  destruct Hkp as (o & Ho & Hl' & Hh1).
  assert (Hne : l' <> kernel_pattern self)
    by (rewrite Hl'; exact (fresh_lookup_ne _ Ho)).
  assert (Ho1 : h1 !! kernel_pattern self = Some o)
    by (rewrite Hh1, lookup_insert_ne by assumption; exact Ho).
  rewrite Ho1. destruct o as [a|orig];
    [cbn [fst snd]; split; [congruence | discriminate]|].
  destruct (set_matrix_dimensions l' _ _ _ h1) as [[[]|e] h2] eqn:Hset.
  2:{ cbn [fst snd]. split; [|discriminate].
      rewrite (@set_matrix_dimensions_frame real _ _ _ _ _ _ _ (kernel_pattern self) Hset)
        by congruence.
      congruence. }
  assert (Ho2 : h2 !! kernel_pattern self = Some (ObjPattern orig)).
  { rewrite (@set_matrix_dimensions_frame real _ _ _ _ _ _ _ (kernel_pattern self) Hset)
        by congruence.
    exact Ho1. }
  destruct (h2 !! l') as [[a|p]|]; cbn [fst snd];
    try (split; [congruence | discriminate]).
  pose proof (fresh_lookup_ne _ Ho2) as Hk.
  split.
  - rewrite lookup_insert_ne by assumption. congruence.
  - intros _. eexists _, _. split; [reflexivity|]. split.
    + apply lookup_insert_eq.
    + intros o'. rewrite lookup_insert_ne by congruence.
      apply lookup_insert_eq.
Qed.

(** ** Normalization by a kernel of zero mass, in binary64 *)

Lemma f64_div_zero (v s : float64) :
  is_zero s = true -> is_inf_or_nan (f64_div v s) = true.
Proof. destruct s; try discriminate. intros _. now destruct v. Qed.

Lemma f64_add_inf_or_nan (v w : float64) :
  is_inf_or_nan w = true -> is_inf_or_nan (f64_add v w) = true.
Proof.
  destruct w as [sw|sw| |sw mw ew]; try discriminate; intros _.
  - destruct v as [sv|sv| |sv mv ev]; try reflexivity.
    cbn. now destruct sv, sw.
  - now destruct v.
Qed.

(** C7: in binary64, when the sum of the kernel array is zero, Apply
    on a field of the shape of the kernel array returns without
    raising, and every element it leaves in the field is an infinity
    or a NaN. *)
Theorem zero_mass_kernel_inf_nan
    (sum : ndarray float64 -> float64)
    (dft : ndarray float64 -> nat -> nat -> complex128)
    (idft : ndarray complex128 -> nat -> nat -> complex128)
    (self : Convolve) (x kl : loc) (h : gmap loc (pyobj float64))
    (m n : nat) (k xa : ndarray float64) :
  kernel self = Some (PyRef kl) ->
  h !! kl = Some (ObjArray k) -> h !! x = Some (ObjArray xa) ->
  has_shape m n k -> has_shape m n xa -> 0 < m -> 0 < n ->
  is_zero (sum k) = true ->
  exists xa',
    @__call__ float64 complex128 (float64_numpy sum dft idft) self x h
    = (Return tt, <[x := ObjArray xa']> h)
    /\ has_shape m n xa'
    /\ Forall (Forall (fun v => is_inf_or_nan v = true)) xa'.
Proof.
  intros Hself Hkl Hxl Hk Hx Hm Hn Hzero.
  eexists. split; [|split].
  - exact (@call_same_shape _ _ (float64_numpy sum dft idft)
             self x kl h m n k xa Hself Hkl Hxl Hk Hx Hm Hn).
  - apply has_shape_mk2.
  - apply Forall_mk2. intros i j _ _. cbn [np_add np_div np_sum float64_numpy].
    now apply f64_add_inf_or_nan, f64_div_zero.
Qed.

(** ** Complex numbers and finite sums *)

Unset Implicit Arguments.

Lemma complex_eq (z w : complex) : Re z = Re w -> Im z = Im w -> z = w.
Proof. destruct z, w. cbn. now intros -> ->. Qed.

Lemma complex_ring_theory : ring_theory C0 C1 Cadd Cmul Csub Copp eq.
Proof.
  constructor; intros; apply complex_eq; cbn; ring.
Qed.

Add Ring complex_ring : complex_ring_theory.

Lemma Cscale_mul (r : R) (z : complex) : Cscale r z = Cmul (RtoC r) z.
Proof. apply complex_eq; cbn; ring. Qed.

Lemma RtoC_mul (a b : R) : RtoC (a * b) = Cmul (RtoC a) (RtoC b).
Proof. apply complex_eq; cbn; ring. Qed.

Lemma RtoC_add (a b : R) : RtoC (a + b) = Cadd (RtoC a) (RtoC b).
Proof. apply complex_eq; cbn; ring. Qed.

(** A product is zero only if a factor is. *)
Lemma Cmul_eq_0_l (z w : complex) : Cmul z w = C0 -> w <> C0 -> z = C0.
Proof.
  destruct z as [a b], w as [c d]. unfold Cmul, C0. cbn. intros [= H1 H2] Hw.
  assert (Hn : (c * c + d * d <> 0)%R).
  { intros Hn. apply Hw. f_equal; nra. }
  assert (Ha : (a * (c * c + d * d) = 0)%R).
  { replace (a * (c * c + d * d))%R
      with (c * (a * c - b * d) + d * (a * d + b * c))%R by ring.
    rewrite H1, H2. ring. }
  assert (Hb : (b * (c * c + d * d) = 0)%R).
  { replace (b * (c * c + d * d))%R
      with (c * (a * d + b * c) - d * (a * c - b * d))%R by ring.
    rewrite H1, H2. ring. }
  apply Rmult_integral in Ha as [Ha|Ha]; [|contradiction].
  apply Rmult_integral in Hb as [Hb|Hb]; [|contradiction].
  now subst.
Qed.

Section Sums.
Implicit Types (f g : nat -> complex).

Lemma Csum_ext n f g : (forall i, i < n -> f i = g i) -> Csum n f = Csum n g.
Proof.
  induction n as [|n IH]; intros Hfg; [reflexivity|]. cbn.
  rewrite IH by (intros; apply Hfg; lia). now rewrite Hfg by lia.
Qed.

Lemma Csum_zero n : Csum n (fun _ => C0) = C0.
Proof. induction n as [|n IH]; [reflexivity|]. cbn. rewrite IH. ring. Qed.

Lemma Csum_add n f g :
  Csum n (fun i => Cadd (f i) (g i)) = Cadd (Csum n f) (Csum n g).
Proof. induction n as [|n IH]; cbn; [|rewrite IH]; ring. Qed.

Lemma Csum_mul_l n (c : complex) f :
  Csum n (fun i => Cmul c (f i)) = Cmul c (Csum n f).
Proof. induction n as [|n IH]; cbn; [|rewrite IH]; ring. Qed.

Lemma Csum_mul_r n (c : complex) f :
  Csum n (fun i => Cmul (f i) c) = Cmul (Csum n f) c.
Proof. induction n as [|n IH]; cbn; [|rewrite IH]; ring. Qed.

Lemma Csum_swap m n (f : nat -> nat -> complex) :
  Csum m (fun i => Csum n (fun j => f i j))
  = Csum n (fun j => Csum m (fun i => f i j)).
Proof.
  induction m as [|m IH]; cbn.
  - now rewrite Csum_zero.
  - now rewrite IH, Csum_add.
Qed.

Lemma Csum_const n (c : complex) : Csum n (fun _ => c) = Cmul (RtoC (INR n)) c.
Proof.
  induction n as [|n IH]; [apply complex_eq; cbn; ring|].
  cbn [Csum]. rewrite IH, S_INR, RtoC_add. change (RtoC 1) with C1. ring.
Qed.

(** A sum with a single term that is not zero. *)
Lemma Csum_single n f a :
  a < n -> (forall i, i < n -> i <> a -> f i = C0) -> Csum n f = f a.
Proof.
  induction n as [|n IH]; intros Ha Hf; [lia|]. cbn.
  destruct (Nat.eq_dec a n) as [->|Hne].
  - rewrite (Csum_ext n f (fun _ => C0)) by (intros; apply Hf; lia).
    rewrite Csum_zero. ring.
  - rewrite IH by (try intros; try apply Hf; lia).
    rewrite (Hf n) by lia. ring.
Qed.

Lemma Csum_conj n f : Csum n (fun i => Cconj (f i)) = Cconj (Csum n f).
Proof.
  induction n as [|n IH]; cbn; [apply complex_eq; cbn; ring|].
  rewrite IH. apply complex_eq; cbn; ring.
Qed.

Lemma Re_Csum n f : Re (Csum n f) = Rsum n (fun i => Re (f i)).
Proof. induction n as [|n IH]; cbn; [|rewrite IH]; reflexivity. Qed.

(** Moving the summation index by one. *)
Lemma Csum_succ n f :
  Cadd (Csum n (fun i => f (S i))) (f 0) = Cadd (Csum n f) (f n).
Proof. induction n as [|n IH]; cbn; [ring|]. rewrite <- IH. ring. Qed.

(** A sum over a full period does not depend on where it starts. *)
Lemma Csum_rotate1 n f : Csum n (fun i => f (S i mod n)) = Csum n f.
Proof.
  destruct n as [|n]; [reflexivity|].
  cbn [Csum]. rewrite Nat.Div0.mod_same.
  rewrite (Csum_ext n (fun i => f (S i mod S n)) (fun i => f (S i)))
    by (intros i Hi; now rewrite Nat.mod_small by lia).
  pose proof (Csum_succ n f) as Hs.
  transitivity (Cadd (Csum n (fun i => f (S i))) (f 0)); [reflexivity|].
  rewrite Hs. reflexivity.
Qed.

Lemma Csum_rotate n s f : Csum n (fun i => f ((i + s) mod n)) = Csum n f.
Proof.
  induction s as [|s IH].
  - apply Csum_ext. intros i Hi. now rewrite Nat.add_0_r, Nat.mod_small.
  - rewrite <- IH.
    rewrite <- (Csum_rotate1 n (fun i => f ((i + s) mod n))).
    apply Csum_ext. intros i Hi. f_equal.
    rewrite Nat.Div0.add_mod_idemp_l. f_equal. lia.
Qed.
End Sums.

(** ** Roots of unity *)

Section Twiddle.
Local Open Scope R_scope.

Lemma twiddle_0 n : twiddle n 0 = C1.
Proof.
  unfold twiddle, C1. cbn [INR].
  replace (2 * PI * 0 / INR n) with 0 by (unfold Rdiv; ring).
  rewrite cos_0, sin_0. f_equal. ring.
Qed.

Lemma twiddle_add n a b :
  twiddle n (a + b) = Cmul (twiddle n a) (twiddle n b).
Proof.
  unfold twiddle. rewrite plus_INR.
  replace (2 * PI * (INR a + INR b) / INR n)
    with (2 * PI * INR a / INR n + 2 * PI * INR b / INR n)
    by (unfold Rdiv; ring).
  rewrite cos_plus, sin_plus. apply complex_eq; cbn; ring.
Qed.

Lemma twiddle_n n : (0 < n)%nat -> twiddle n n = C1.
Proof.
  intros Hn. unfold twiddle, C1.
  assert (INR n <> 0) by (apply not_0_INR; lia).
  replace (2 * PI * INR n / INR n) with (2 * PI) by (field; assumption).
  rewrite cos_2PI, sin_2PI. f_equal. ring.
Qed.

Lemma twiddle_mul_n n q : (0 < n)%nat -> twiddle n (q * n) = C1.
Proof.
  intros Hn. induction q as [|q IH]; [apply twiddle_0|].
  cbn [Nat.mul]. rewrite twiddle_add, IH, twiddle_n by assumption. ring.
Qed.

Lemma twiddle_mod n k : (0 < n)%nat -> twiddle n k = twiddle n (k mod n).
Proof.
  intros Hn. rewrite (Nat.div_mod_eq k n) at 1.
  rewrite twiddle_add, (Nat.mul_comm n), twiddle_mul_n by assumption. ring.
Qed.

Lemma twiddle_mul_mod n u k :
  (0 < n)%nat -> twiddle n (u * (k mod n)) = twiddle n (u * k).
Proof.
  intros Hn. rewrite (twiddle_mod n (u * (k mod n))), (twiddle_mod n (u * k))
    by assumption.
  now rewrite Nat.Div0.mul_mod_idemp_r.
Qed.

Lemma twiddle_ne_1 n d : (0 < d < n)%nat -> twiddle n d <> C1.
Proof.
  intros [Hd Hn] Heq. apply (f_equal Re) in Heq. cbn in Heq.
  assert (Hn0 : 0 < INR n) by (apply lt_0_INR; lia).
  assert (Hd0 : 0 < INR d) by (apply lt_0_INR; lia).
  assert (Hdn : INR d < INR n) by (apply lt_INR; lia).
  set (y := PI * INR d / INR n).
  replace (2 * PI * INR d / INR n) with (2 * y) in Heq
    by (unfold y, Rdiv; ring).
  rewrite cos_2a_sin in Heq.
  assert (Hy0 : 0 < y).
  { unfold y, Rdiv. apply Rmult_lt_0_compat; [|now apply Rinv_0_lt_compat].
    apply Rmult_lt_0_compat; [apply PI_RGT_0 | assumption]. }
  assert (Hy1 : y < PI).
  { unfold y. apply (Rmult_lt_reg_r (INR n)); [assumption|].
    replace (PI * INR d / INR n * INR n) with (PI * INR d)
      by (field; lra).
    apply Rmult_lt_compat_l; [apply PI_RGT_0 | assumption]. }
  pose proof (sin_gt_0 y Hy0 Hy1) as Hs.
  assert (0 < sin y * sin y) by (apply Rmult_lt_0_compat; assumption).
  lra.
Qed.

Lemma twiddle_inv_conj n k : twiddle_inv n k = Cconj (twiddle n k).
Proof. unfold twiddle_inv, twiddle, Cconj. cbn. f_equal. ring. Qed.

Lemma Cconj_mul z w : Cconj (Cmul z w) = Cmul (Cconj z) (Cconj w).
Proof. apply complex_eq; cbn; ring. Qed.

Lemma twiddle_inv_add n a b :
  twiddle_inv n (a + b) = Cmul (twiddle_inv n a) (twiddle_inv n b).
Proof. now rewrite !twiddle_inv_conj, twiddle_add, Cconj_mul. Qed.

Lemma twiddle_inv_mul n k : Cmul (twiddle n k) (twiddle_inv n k) = C1.
Proof.
  unfold twiddle, twiddle_inv, C1, Cmul. cbn.
  set (y := 2 * PI * INR k / INR n).
  pose proof (sin2_cos2 y) as Hy. unfold Rsqr in Hy.
  f_equal; [|ring].
  replace (cos y * cos y - - sin y * sin y) with (sin y * sin y + cos y * cos y)
    by ring.
  exact Hy.
Qed.

(** The sum of the powers of a root of unity. *)
Lemma twiddle_sum n d :
  (0 < n)%nat -> (d < n)%nat ->
  Csum n (fun u => twiddle n (u * d))
  = if (d =? 0)%nat then RtoC (INR n) else C0.
Proof.
  intros Hn Hd. destruct (Nat.eqb_spec d 0) as [->|Hd0].
  - rewrite (Csum_ext n _ (fun _ => C1))
      by (intros u _; rewrite Nat.mul_0_r; apply twiddle_0).
    rewrite Csum_const. ring.
  - set (S := Csum n (fun u => twiddle n (u * d))).
    apply (Cmul_eq_0_l S (Csub (twiddle n d) C1)).
    + assert (Hs : Cmul S (twiddle n d) = S).
      { unfold S. rewrite <- Csum_mul_r.
        rewrite (Csum_ext n _ (fun u => twiddle n (Datatypes.S u * d)))
          by (intros u _; cbn [Nat.mul];
              rewrite (Nat.add_comm d), twiddle_add; reflexivity).
        pose proof (Csum_succ n (fun u => twiddle n (u * d))) as Hsucc.
        cbn beta in Hsucc.
        rewrite (Nat.mul_comm n d), twiddle_mul_n in Hsucc by assumption.
        change (0 * d)%nat with 0%nat in Hsucc. rewrite twiddle_0 in Hsucc.
        set (T := Csum n (fun u => twiddle n (Datatypes.S u * d))) in *.
        replace T with (Csub (Cadd T C1) C1) by ring.
        rewrite Hsucc. ring. }
      replace (Cmul S (Csub (twiddle n d) C1))
        with (Csub (Cmul S (twiddle n d)) S) by ring.
      rewrite Hs. ring.
    + intros Heq. apply (twiddle_ne_1 n d); [lia|].
      replace (twiddle n d) with (Cadd (Csub (twiddle n d) C1) C1) by ring.
      rewrite Heq. ring.
Qed.

Lemma twiddle_inv_sum n d :
  (0 < n)%nat -> (d < n)%nat ->
  Csum n (fun u => twiddle_inv n (u * d))
  = if (d =? 0)%nat then RtoC (INR n) else C0.
Proof.
  intros Hn Hd.
  rewrite (Csum_ext n _ (fun u => Cconj (twiddle n (u * d))))
    by (intros; apply twiddle_inv_conj).
  rewrite Csum_conj, twiddle_sum by assumption.
  destruct (d =? 0)%nat; apply complex_eq; cbn; ring.
Qed.

(** Orthogonality of the characters of the cyclic group. *)
Lemma twiddle_orthogonal n a i :
  (0 < n)%nat -> (a < n)%nat -> (i < n)%nat ->
  Csum n (fun u => Cmul (twiddle n (u * a)) (twiddle_inv n (u * i)))
  = if (a =? i)%nat then RtoC (INR n) else C0.
Proof.
  intros Hn Ha Hi. destruct (Nat.eqb_spec a i) as [->|Hne].
  - rewrite (Csum_ext n _ (fun _ => C1)) by (intros; apply twiddle_inv_mul).
    rewrite Csum_const. ring.
  - destruct (Nat.lt_ge_cases i a) as [Hlt|Hge].
    + rewrite (Csum_ext n _ (fun u => twiddle n (u * (a - i)))).
      * rewrite twiddle_sum by lia.
        destruct (Nat.eqb_spec (a - i) 0); [lia | reflexivity].
      * intros u _. replace (u * a)%nat with (u * (a - i) + u * i)%nat by nia.
        rewrite twiddle_add.
        replace (Cmul (Cmul (twiddle n (u * (a - i))) (twiddle n (u * i)))
                   (twiddle_inv n (u * i)))
          with (Cmul (twiddle n (u * (a - i)))
                  (Cmul (twiddle n (u * i)) (twiddle_inv n (u * i)))) by ring.
        rewrite twiddle_inv_mul. ring.
    + rewrite (Csum_ext n _ (fun u => twiddle_inv n (u * (i - a)))).
      * rewrite twiddle_inv_sum by lia.
        destruct (Nat.eqb_spec (i - a) 0); [lia | reflexivity].
      * intros u _. replace (u * i)%nat with (u * (i - a) + u * a)%nat by nia.
        rewrite twiddle_inv_add.
        replace (Cmul (twiddle n (u * a))
                   (Cmul (twiddle_inv n (u * (i - a))) (twiddle_inv n (u * a))))
          with (Cmul (twiddle_inv n (u * (i - a)))
                  (Cmul (twiddle n (u * a)) (twiddle_inv n (u * a)))) by ring.
        rewrite twiddle_inv_mul. ring.
Qed.
End Twiddle.

(** ** The discrete Fourier transform *)

Section Fourier.
Implicit Types (f g F G : nat -> complex).

Lemma dft_ext n f g u :
  (forall a, a < n -> f a = g a) -> dft n f u = dft n g u.
Proof.
  intros Hfg. apply Csum_ext. intros a Ha. now rewrite Hfg.
Qed.

Lemma idft_ext n F G i :
  (forall u, u < n -> F u = G u) -> idft n F i = idft n G i.
Proof.
  intros HFG. unfold idft. f_equal. apply Csum_ext. intros u Hu.
  now rewrite HFG.
Qed.

Lemma dft_mul_r n f (c : complex) u :
  dft n (fun a => Cmul (f a) c) u = Cmul (dft n f u) c.
Proof.
  unfold dft. rewrite <- Csum_mul_r. apply Csum_ext. intros a _. ring.
Qed.

Lemma dft_0 n f : dft n f 0 = Csum n f.
Proof.
  apply Csum_ext. intros a _. cbn [Nat.mul]. rewrite twiddle_0. ring.
Qed.

Lemma Cscale_inv_INR n (z : complex) :
  0 < n -> Cscale (/ INR n) (Cmul z (RtoC (INR n))) = z.
Proof.
  intros Hn. assert (INR n <> 0%R) by (apply not_0_INR; lia).
  apply complex_eq; cbn; field; assumption.
Qed.

(** The inverse transform undoes the transform. *)
Lemma idft_dft n f i : 0 < n -> i < n -> idft n (dft n f) i = f i.
Proof.
  intros Hn Hi. unfold idft, dft.
  rewrite (Csum_ext n _ (fun u => Csum n (fun a =>
             Cmul (f a) (Cmul (twiddle n (u * a)) (twiddle_inv n (u * i))))))
    by (intros u _; rewrite <- Csum_mul_r; apply Csum_ext; intros; ring).
  rewrite Csum_swap.
  rewrite (Csum_ext n _ (fun a =>
             Cmul (f a) (if a =? i then RtoC (INR n) else C0))).
  - rewrite (Csum_single n _ i Hi).
    + rewrite Nat.eqb_refl. now apply Cscale_inv_INR.
    + intros a _ Ha. destruct (Nat.eqb_spec a i); [contradiction | ring].
  - intros a Ha. rewrite Csum_mul_l. f_equal.
    now apply twiddle_orthogonal.
Qed.

(** The shift theorem: a cyclic shift by [c] multiplies the transform
    by a character. *)
Lemma dft_shift n c f u :
  0 < n -> c < n ->
  dft n (fun a => f ((a + (n - c)) mod n)) u
  = Cmul (dft n f u) (twiddle n (u * c)).
Proof.
  intros Hn Hc. unfold dft. rewrite <- Csum_mul_r.
  rewrite <- (Csum_rotate n (n - c)
                (fun b => Cmul (Cmul (f b) (twiddle n (u * b)))
                            (twiddle n (u * c)))).
  apply Csum_ext. intros a Ha.
  set (b := (a + (n - c)) mod n).
  replace (Cmul (Cmul (f b) (twiddle n (u * b))) (twiddle n (u * c)))
    with (Cmul (f b) (Cmul (twiddle n (u * b)) (twiddle n (u * c)))) by ring.
  f_equal. rewrite <- twiddle_add, <- Nat.mul_add_distr_l.
  rewrite <- (twiddle_mul_mod n u (b + c)) by assumption.
  f_equal. f_equal. unfold b.
  rewrite Nat.Div0.add_mod_idemp_l.
  replace (a + (n - c) + c) with (a + 1 * n) by lia.
  rewrite Nat.Div0.mod_add. now rewrite Nat.mod_small.
Qed.

(** The sum of the inverse transform is the coefficient of frequency 0. *)
Lemma Csum_idft n F : 0 < n -> Csum n (idft n F) = F 0.
Proof.
  intros Hn. unfold idft.
  rewrite (Csum_ext n _ (fun i => Cmul (RtoC (/ INR n))
             (Csum n (fun u => Cmul (F u) (twiddle_inv n (u * i))))))
    by (intros; apply Cscale_mul).
  rewrite Csum_mul_l, Csum_swap.
  rewrite (Csum_ext n _ (fun u =>
             Cmul (F u) (if u =? 0 then RtoC (INR n) else C0))).
  - rewrite (Csum_single n _ 0 Hn).
    + cbn [Nat.eqb]. rewrite <- Cscale_mul. now apply Cscale_inv_INR.
    + intros u _ Hu. destruct (Nat.eqb_spec u 0); [contradiction | ring].
  - intros u Hu. rewrite Csum_mul_l. f_equal.
    rewrite (Csum_ext n _ (fun i => twiddle_inv n (i * u)))
      by (intros; now rewrite Nat.mul_comm).
    now apply twiddle_inv_sum.
Qed.

(** Transforms along different axes commute. *)
Lemma idft_dft_swap m n (G : nat -> nat -> complex) u j :
  idft n (fun v => dft m (fun a => G a v) u) j
  = dft m (fun a => idft n (G a) j) u.
Proof.
  unfold idft, dft. rewrite Cscale_mul.
  rewrite (Csum_ext n _ (fun v => Csum m (fun a =>
             Cmul (Cmul (G a v) (twiddle_inv n (v * j))) (twiddle m (u * a)))))
    by (intros v _; rewrite <- Csum_mul_r; apply Csum_ext; intros; ring).
  rewrite Csum_swap, <- Csum_mul_l.
  apply Csum_ext. intros a _. rewrite Csum_mul_r, Cscale_mul. ring.
Qed.

Lemma dft2_rows_cols m n (f : nat -> nat -> complex) u v :
  dft2 m n f u v = dft m (fun a => dft n (f a) v) u.
Proof.
  unfold dft2, dft. apply Csum_ext. intros a _.
  rewrite <- Csum_mul_r. apply Csum_ext. intros b _. ring.
Qed.

Lemma idft2_rows_cols m n (F : nat -> nat -> complex) i j :
  idft2 m n F i j = idft m (fun u => idft n (F u) j) i.
Proof.
  unfold idft2, idft. rewrite Rinv_mult, !Cscale_mul, RtoC_mul.
  set (S := Csum m (fun u => Csum n _)).
  replace (Cmul (Cmul (RtoC (/ INR m)) (RtoC (/ INR n))) S)
    with (Cmul (RtoC (/ INR m)) (Cmul (RtoC (/ INR n)) S)) by ring.
  f_equal. unfold S. rewrite <- Csum_mul_l. apply Csum_ext. intros u _.
  rewrite Cscale_mul.
  rewrite (Csum_ext n
             (fun v => Cmul (F u v)
                         (Cmul (twiddle_inv m (u * i)) (twiddle_inv n (v * j))))
             (fun v => Cmul (Cmul (F u v) (twiddle_inv n (v * j)))
                         (twiddle_inv m (u * i))))
    by (intros; ring).
  rewrite Csum_mul_r. ring.
Qed.

Lemma dft2_ext m n (f g : nat -> nat -> complex) u v :
  (forall a b, a < m -> b < n -> f a b = g a b) ->
  dft2 m n f u v = dft2 m n g u v.
Proof.
  intros Hfg. unfold dft2. apply Csum_ext. intros a Ha.
  apply Csum_ext. intros b Hb. now rewrite Hfg.
Qed.

Lemma idft2_ext m n (F G : nat -> nat -> complex) i j :
  (forall u v, u < m -> v < n -> F u v = G u v) ->
  idft2 m n F i j = idft2 m n G i j.
Proof.
  intros HFG. unfold idft2. f_equal. apply Csum_ext. intros u Hu.
  apply Csum_ext. intros v Hv. now rewrite HFG.
Qed.

(** The 2-D inverse transform undoes the 2-D transform. *)
Lemma idft2_dft2 m n (f : nat -> nat -> complex) i j :
  0 < m -> 0 < n -> i < m -> j < n ->
  idft2 m n (dft2 m n f) i j = f i j.
Proof.
  intros Hm Hn Hi Hj. rewrite idft2_rows_cols.
  rewrite (idft_ext m _ (dft m (fun a => f a j))).
  - now apply (idft_dft m (fun a => f a j)).
  - intros u _.
    rewrite (idft_ext n _ (fun v => dft m (fun a => dft n (f a) v) u))
      by (intros; apply dft2_rows_cols).
    rewrite idft_dft_swap. apply dft_ext. intros a _.
    now apply idft_dft.
Qed.

(** The 2-D shift theorem. *)
Lemma dft2_shift m n r c (f : nat -> nat -> complex) u v :
  0 < m -> 0 < n -> r < m -> c < n ->
  dft2 m n (fun a b => f ((a + (m - r)) mod m) ((b + (n - c)) mod n)) u v
  = Cmul (dft2 m n f u v) (Cmul (twiddle m (u * r)) (twiddle n (v * c))).
Proof.
  intros Hm Hn Hr Hc. rewrite !dft2_rows_cols.
  rewrite (dft_ext m _ (fun a =>
             (fun a' => Cmul (dft n (f a') v) (twiddle n (v * c)))
               ((a + (m - r)) mod m)))
    by (intros a _; now apply (dft_shift n c (f ((a + (m - r)) mod m)))).
  rewrite (dft_shift m r (fun a' => Cmul (dft n (f a') v) (twiddle n (v * c))))
    by assumption.
  rewrite dft_mul_r. ring.
Qed.

Lemma Csum_idft2 m n (F : nat -> nat -> complex) :
  0 < m -> 0 < n ->
  Csum m (fun i => Csum n (fun j => idft2 m n F i j)) = F 0 0.
Proof.
  intros Hm Hn.
  rewrite (Csum_ext m _ (fun i => Csum n (fun j =>
             idft m (fun u => idft n (F u) j) i)))
    by (intros; apply Csum_ext; intros; apply idft2_rows_cols).
  rewrite Csum_swap.
  rewrite (Csum_ext n _ (idft n (F 0)))
    by (intros j _; now apply (Csum_idft m (fun u => idft n (F u) j))).
  now apply Csum_idft.
Qed.

Lemma dft2_0_0 m n (f : nat -> nat -> complex) :
  dft2 m n f 0 0 = Csum m (fun a => Csum n (f a)).
Proof.
  unfold dft2. apply Csum_ext. intros a _. apply Csum_ext. intros b _.
  cbn [Nat.mul]. rewrite !twiddle_0. ring.
Qed.

(** The transform of a unit impulse at (r, c) is a character. *)
Lemma dft2_impulse m n r c u v :
  r < m -> c < n ->
  dft2 m n (fun a b => if (a =? r) && (b =? c) then C1 else C0) u v
  = Cmul (twiddle m (u * r)) (twiddle n (v * c)).
Proof.
  intros Hr Hc. unfold dft2.
  rewrite (Csum_single m _ r Hr).
  - rewrite (Csum_single n _ c Hc).
    + rewrite !Nat.eqb_refl. cbn [andb]. ring.
    + intros b _ Hb. rewrite Nat.eqb_refl.
      destruct (Nat.eqb_spec b c); [contradiction|]. cbn [andb]. ring.
  - intros a _ Ha. destruct (Nat.eqb_spec a r); [contradiction|].
    cbn [andb]. rewrite (Csum_ext n _ (fun _ => C0)) by (intros; ring).
    apply Csum_zero.
Qed.
End Fourier.

(** ** Apply in exact arithmetic *)

Section ExactFacts.
Local Open Scope R_scope.
Implicit Types (k xa : ndarray R) (h : gmap loc (pyobj R)).

Lemma shifted_from_neg m s i :
  (0 < m)%nat -> shifted_from m (- Z.of_nat s) i = ((i + s) mod m)%nat.
Proof.
  intros Hm. unfold shifted_from.
  replace (Z.of_nat i - - Z.of_nat s)%Z with (Z.of_nat (i + s)) by lia.
  rewrite <- Nat2Z.inj_mod. apply Nat2Z.id.
Qed.

(** The entries of [convolved_raw] are those the spec describes. *)
Lemma item_same_shape_raw m n k xa i j :
  has_shape m n k -> has_shape m n xa -> (0 < m)%nat -> (0 < n)%nat ->
  (i < m)%nat -> (j < n)%nat ->
  item 0 (same_shape_raw m n k xa) i j = raw_convolved_spec k xa i j.
Proof.
  intros Hk Hx Hm Hn Hi Hj. unfold same_shape_raw, real_part.
  rewrite (item_map _ C0 0 (has_shape_mk2 m n _) Hi Hj).
  rewrite (item_mk2 _ _ Hi Hj).
  cbn [np_re np_idft2 np_cmul np_dft2 exact_numpy].
  rewrite nrows_mk2, (ncols_mk2 _ _ Hm).
  unfold raw_convolved_spec.
  rewrite (has_shape_nrows Hk), (has_shape_ncols Hk Hm).
  f_equal. apply idft2_ext. intros u v Hu Hv.
  rewrite (item_mk2 _ _ Hu Hv).
  now rewrite (has_shape_nrows Hx), (has_shape_ncols Hx Hm).
Qed.

Lemma same_shape_contents_apply_spec m n k xa :
  has_shape m n k -> has_shape m n xa -> (0 < m)%nat -> (0 < n)%nat ->
  same_shape_contents m n k xa = apply_spec k xa.
Proof.
  intros Hk Hx Hm Hn. unfold same_shape_contents, apply_spec.
  rewrite (has_shape_nrows Hk), (has_shape_ncols Hk Hm).
  apply mk2_ext. intros i j Hi Hj.
  cbn [np_add np_div np_zero np_sum exact_numpy].
  rewrite item_same_shape_raw
    by (try assumption; apply shifted_from_lt; assumption).
  ring.
Qed.
End ExactFacts.

(** What the call leaves in the field is [0.0 + r], element by
    element, for the array [r] of the spec. *)
Lemma same_shape_contents_apply_spec_np {real cplx : Type} `{NumPy real cplx}
    (m n : nat) (k xa : ndarray real) :
  has_shape m n k -> 0 < m ->
  same_shape_contents m n k xa
  = mk2 m n (fun i j => np_add np_zero (item np_zero (apply_spec_np k xa) i j)).
Proof.
  intros Hk Hm. unfold same_shape_contents, apply_spec_np, raw_convolved_np.
  rewrite (has_shape_nrows Hk), (has_shape_ncols Hk Hm).
  apply mk2_ext. intros i j Hi Hj. now rewrite (item_mk2 _ _ Hi Hj).
Qed.

Lemma has_shape_apply_spec_np {real cplx : Type} `{NumPy real cplx}
    (m n : nat) (k xa : ndarray real) :
  has_shape m n k -> 0 < m -> has_shape m n (apply_spec_np k xa).
Proof.
  intros Hk Hm. unfold apply_spec_np.
  rewrite (has_shape_nrows Hk), (has_shape_ncols Hk Hm). apply has_shape_mk2.
Qed.

(** C1: in any arithmetic, exact or binary64, for every prepared
    operator and every field of the shape of the kernel array, Apply
    returns and the field then holds [0.0 + r], element by element,
    where [r] is [apply_spec_np]: the real part of the inverse
    transform of the product of the transforms of the field and of the
    kernel array, shifted by [-(n / 2)] along the columns and
    [-(m / 2)] along the rows, divided by the sum of the kernel array.
    Where [0.0 + v] is [v] for every [v], as in exact arithmetic, the
    field holds [r] itself; in binary64 [0.0 + v] differs from [v] only
    in the sign of a zero. *)
Theorem call_computes_apply_spec {real cplx : Type} `{NumPy real cplx}
    (self : Convolve) (x kl : loc) (h : gmap loc (pyobj real))
    (m n : nat) (k xa : ndarray real) :
  kernel self = Some (PyRef kl) ->
  h !! kl = Some (ObjArray k) -> h !! x = Some (ObjArray xa) ->
  has_shape m n k -> has_shape m n xa -> 0 < m -> 0 < n ->
  __call__ self x h
  = (Return tt,
     <[x := ObjArray (mk2 m n (fun i j =>
             np_add np_zero (item np_zero (apply_spec_np k xa) i j)))]> h)
  /\ ((forall v : real, np_add np_zero v = v) ->
      __call__ self x h
      = (Return tt, <[x := ObjArray (apply_spec_np k xa)]> h)).
Proof.
  intros Hself Hkl Hxl Hk Hx Hm Hn.
  rewrite (call_same_shape self x h Hself Hkl Hxl Hk Hx Hm Hn).
  rewrite (same_shape_contents_apply_spec_np m n k xa Hk Hm).
  split; [reflexivity|]. intros Hadd. do 3 f_equal.
  rewrite (mk2_ext _ (item np_zero (apply_spec_np k xa)))
    by (intros i j _ _; apply Hadd).
  apply (mk2_item np_zero (has_shape_apply_spec_np m n k xa Hk Hm)).
Qed.

(** ** Sums of arrays and impulse kernels *)

Section ExactSums.
Local Open Scope R_scope.
Implicit Types (k xa : ndarray R).

Lemma Rlist_sum_app (l1 l2 : list R) :
  Rlist_sum (l1 ++ l2) = Rlist_sum l1 + Rlist_sum l2.
Proof.
  unfold Rlist_sum.
  induction l1 as [|v l1 IH]; cbn [app fold_right]; [|rewrite IH]; ring.
Qed.

Lemma Rlist_sum_map_seq n (g : nat -> R) :
  Rlist_sum (map g (seq 0 n)) = Rsum n g.
Proof.
  induction n as [|n IH]; [reflexivity|].
  rewrite seq_S, map_app, Rlist_sum_app, IH.
  unfold Rlist_sum. cbn [Nat.add map fold_right Rsum]. ring.
Qed.

Lemma array_sum_mk2 m n (f : nat -> nat -> R) :
  array_sum (mk2 m n f) = Rsum m (fun i => Rsum n (f i)).
Proof.
  unfold array_sum, mk2. induction m as [|m IH]; [reflexivity|].
  rewrite seq_S, map_app, concat_app, Rlist_sum_app, IH. cbn [Rsum].
  f_equal. cbn [Nat.add map concat]. rewrite app_nil_r.
  apply Rlist_sum_map_seq.
Qed.

Lemma Rsum_ext n (f g : nat -> R) :
  (forall i, (i < n)%nat -> f i = g i) -> Rsum n f = Rsum n g.
Proof.
  induction n as [|n IH]; intros Hfg; [reflexivity|]. cbn.
  rewrite IH by (intros; apply Hfg; lia). now rewrite Hfg by lia.
Qed.

Lemma RtoC_Rsum n (f : nat -> R) :
  RtoC (Rsum n f) = Csum n (fun i => RtoC (f i)).
Proof.
  induction n as [|n IH]; [reflexivity|]. cbn [Rsum Csum].
  now rewrite RtoC_add, IH.
Qed.

(** The sum of an array is the coefficient of frequency (0, 0) of its
    transform. *)
Lemma array_sum_dft2 m n xa :
  has_shape m n xa ->
  RtoC (array_sum xa) = dft2 m n (fun a b => RtoC (item 0 xa a b)) 0 0.
Proof.
  intros Hx. rewrite <- (mk2_item 0 Hx) at 1.
  rewrite array_sum_mk2, RtoC_Rsum, dft2_0_0.
  apply Csum_ext. intros a _. apply RtoC_Rsum.
Qed.
End ExactSums.

Section ExactKernels.
Local Open Scope R_scope.
Implicit Types (k xa : ndarray R).

(** Convolution with a unit impulse at (r, c) is the cyclic shift by
    (r, c). *)
Lemma raw_convolved_impulse m n r c k xa i j :
  impulse_at m n r c k -> has_shape m n xa ->
  (0 < m)%nat -> (0 < n)%nat -> (r < m)%nat -> (c < n)%nat ->
  (i < m)%nat -> (j < n)%nat ->
  raw_convolved_spec k xa i j
  = item 0 xa ((i + (m - r)) mod m)%nat ((j + (n - c)) mod n)%nat.
Proof.
  intros [Hk Himp] Hx Hm Hn Hr Hc Hi Hj. unfold raw_convolved_spec.
  rewrite (has_shape_nrows Hk), (has_shape_ncols Hk Hm).
  rewrite (idft2_ext m n _
             (dft2 m n (fun a b =>
                RtoC (item 0 xa ((a + (m - r)) mod m)%nat
                                ((b + (n - c)) mod n)%nat)))).
  - now rewrite idft2_dft2.
  - intros u v _ _.
    rewrite (dft2_shift m n r c (fun a b => RtoC (item 0 xa a b)))
      by assumption.
    f_equal.
    rewrite (dft2_ext m n _
               (fun a b => if (a =? r)%nat && (b =? c)%nat then C1 else C0)).
    + now apply dft2_impulse.
    + intros a b Ha Hb. rewrite (Himp a b Ha Hb).
      now destruct ((a =? r)%nat && (b =? c)%nat).
Qed.

Lemma array_sum_impulse m n r c k :
  impulse_at m n r c k -> (r < m)%nat -> (c < n)%nat -> array_sum k = 1.
Proof.
  intros [Hk Himp] Hr Hc.
  pose proof (array_sum_dft2 m n k Hk) as Hs.
  rewrite (dft2_ext m n _
             (fun a b => if (a =? r)%nat && (b =? c)%nat then C1 else C0))
    in Hs.
  - rewrite dft2_impulse in Hs by assumption.
    cbn [Nat.mul] in Hs. rewrite !twiddle_0 in Hs.
    apply (f_equal Re) in Hs. cbn in Hs. lra.
  - intros a b Ha Hb. rewrite (Himp a b Ha Hb).
    now destruct ((a =? r)%nat && (b =? c)%nat).
Qed.

(** What Apply leaves in the field for an impulse kernel. *)
Lemma apply_spec_impulse m n r c k xa :
  impulse_at m n r c k -> has_shape m n xa ->
  (0 < m)%nat -> (0 < n)%nat -> (r < m)%nat -> (c < n)%nat ->
  apply_spec k xa
  = mk2 m n (fun i j =>
      item 0 xa (((i + m / 2) mod m + (m - r)) mod m)%nat
                (((j + n / 2) mod n + (n - c)) mod n)%nat).
Proof.
  intros Hk Hx Hm Hn Hr Hc. unfold apply_spec.
  rewrite (has_shape_nrows (proj1 Hk)), (has_shape_ncols (proj1 Hk) Hm).
  apply mk2_ext. intros i j Hi Hj.
  rewrite !shifted_from_neg by assumption.
  rewrite (raw_convolved_impulse m n r c k xa) by
    (try assumption; apply Nat.mod_upper_bound; lia).
  rewrite (array_sum_impulse m n r c k) by assumption.
  field.
Qed.

Lemma centre_round_trip m i :
  (i < m)%nat -> (((i + m / 2) mod m + (m - m / 2)) mod m = i)%nat.
Proof.
  intros Hi. assert (m / 2 < m)%nat by (apply Nat.div_lt; lia).
  rewrite Nat.Div0.add_mod_idemp_l.
  replace (i + m / 2 + (m - m / 2))%nat with (i + 1 * m)%nat by lia.
  rewrite Nat.Div0.mod_add. now apply Nat.mod_small.
Qed.

Lemma Rsum_mul_r n (f : nat -> R) (c : R) :
  Rsum n (fun i => f i * c) = Rsum n f * c.
Proof. induction n as [|n IH]; cbn; [|rewrite IH]; ring. Qed.

Lemma Rsum2_Re m n (W : nat -> nat -> complex) :
  Rsum m (fun i => Rsum n (fun j => Re (W i j)))
  = Re (Csum m (fun i => Csum n (W i))).
Proof.
  rewrite Re_Csum. apply Rsum_ext. intros i _. now rewrite Re_Csum.
Qed.

Lemma Csum2_rotate m n s t (W : nat -> nat -> complex) :
  Csum m (fun i => Csum n (fun j => W ((i + s) mod m)%nat ((j + t) mod n)%nat))
  = Csum m (fun i => Csum n (W i)).
Proof.
  rewrite (Csum_rotate m s (fun i' => Csum n (fun j => W i' ((j + t) mod n)%nat))).
  apply Csum_ext. intros i _. apply (Csum_rotate n t (W i)).
Qed.

(** The sum of what Apply leaves in the field. *)
Lemma array_sum_apply_spec m n k xa :
  has_shape m n k -> has_shape m n xa -> (0 < m)%nat -> (0 < n)%nat ->
  array_sum (apply_spec k xa) = array_sum xa * array_sum k / array_sum k.
Proof.
  intros Hk Hx Hm Hn. unfold apply_spec.
  rewrite (has_shape_nrows Hk), (has_shape_ncols Hk Hm), array_sum_mk2.
  set (F := fun u v =>
         Cmul (dft2 m n (fun a b => RtoC (item 0 xa a b)) u v)
              (dft2 m n (fun a b => RtoC (item 0 k a b)) u v)).
  rewrite (Rsum_ext m _ (fun i => Rsum n (fun j =>
             Re (idft2 m n F ((i + m / 2) mod m)%nat ((j + n / 2) mod n)%nat))
             * / array_sum k)).
  - rewrite Rsum_mul_r, (Rsum2_Re m n (fun i j =>
      idft2 m n F ((i + m / 2) mod m)%nat ((j + n / 2) mod n)%nat)).
    rewrite (Csum2_rotate m n (m / 2) (n / 2) (idft2 m n F)).
    rewrite Csum_idft2 by assumption. unfold F.
    rewrite <- (array_sum_dft2 m n xa Hx), <- (array_sum_dft2 m n k Hk).
    cbn. unfold Rdiv. ring.
  - intros i _. rewrite <- Rsum_mul_r. apply Rsum_ext. intros j _.
    rewrite !shifted_from_neg by assumption. unfold raw_convolved_spec.
    now rewrite (has_shape_nrows Hk), (has_shape_ncols Hk Hm).
Qed.
End ExactKernels.

(** C3, amended: in exact arithmetic, when the kernel array is the unit
    impulse at the centre cell (m / 2, n / 2), Apply on a field of the
    same shape returns and leaves the store, hence the contents of the
    field, as it was. *)
Theorem identity_kernel
    (self : Convolve) (x kl : loc) (h : gmap loc (pyobj R))
    (m n : nat) (k xa : ndarray R) :
  kernel self = Some (PyRef kl) ->
  h !! kl = Some (ObjArray k) -> h !! x = Some (ObjArray xa) ->
  impulse_at m n (m / 2) (n / 2) k -> has_shape m n xa -> 0 < m -> 0 < n ->
  __call__ self x h = (Return tt, h).
Proof.
  intros Hself Hkl Hxl Hk Hx Hm Hn.
  assert (Hr : m / 2 < m) by (apply Nat.div_lt; lia).
  assert (Hc : n / 2 < n) by (apply Nat.div_lt; lia).
  rewrite (call_same_shape self x h Hself Hkl Hxl (proj1 Hk) Hx Hm Hn).
  rewrite (same_shape_contents_apply_spec m n k xa (proj1 Hk) Hx Hm Hn).
  rewrite (apply_spec_impulse m n (m / 2) (n / 2) k xa Hk Hx Hm Hn Hr Hc).
  rewrite (mk2_ext _ (item 0%R xa))
    by (intros i j Hi Hj; now rewrite !centre_round_trip).
  rewrite (mk2_item 0%R Hx). now rewrite insert_id.
Qed.

(** C3 as stated fails in binary64, where the transforms round: with
    the unit impulse at the centre of a kernel array of shape (2, 2),
    the field [[2^53, 1], [0, 0]] is left as [[2^53, 0.5], [0, 0]]
    ([2^53 + 1] rounds to [2^53] in the transform of the field). *)
Lemma identity_kernel_rounds_in_binary64 :
  let two53 : float64 := S754_finite false 4503599627370496 1 in
  let k : ndarray float64 :=
    [[S754_zero false; S754_zero false]; [S754_zero false; f64_one]] in
  let xa : ndarray float64 :=
    [[two53; f64_one]; [S754_zero false; S754_zero false]] in
  let h := sample_store k xa in
  let np := float64_numpy f64_sum_in_order f64_dft_2x2 f64_idft_2x2 in
  h !! 2%positive = Some (ObjArray xa)
  /\ fst (@__call__ float64 complex128 np prepared_operator 2%positive h)
     = Return tt
  /\ snd (@__call__ float64 complex128 np prepared_operator 2%positive h)
       !! 2%positive
     = Some (ObjArray [[two53; f64_half];
                       [S754_zero false; S754_zero false]])
  /\ snd (@__call__ float64 complex128 np prepared_operator 2%positive h)
       !! 2%positive
     <> h !! 2%positive.
Proof.
  intros two53 k xa h np.
  assert (Hcall : snd (@__call__ float64 complex128 np prepared_operator
                         2%positive h) !! 2%positive
                  = Some (ObjArray [[two53; f64_half];
                                    [S754_zero false; S754_zero false]]))
    by (vm_compute; reflexivity).
  split; [reflexivity|]. split; [vm_compute; reflexivity|].
  split; [exact Hcall|].
  rewrite Hcall. vm_compute. discriminate.
Qed.

(** C4: when the elements of the kernel array sum to 1, Apply on a
    field of the same shape returns, and the sum of the elements it
    leaves in the field is the sum of the elements of the field
    before. *)
Theorem mass_preserved
    (self : Convolve) (x kl : loc) (h : gmap loc (pyobj R))
    (m n : nat) (k xa : ndarray R) :
  kernel self = Some (PyRef kl) ->
  h !! kl = Some (ObjArray k) -> h !! x = Some (ObjArray xa) ->
  has_shape m n k -> has_shape m n xa -> 0 < m -> 0 < n ->
  array_sum k = 1%R ->
  exists xa',
    __call__ self x h = (Return tt, <[x := ObjArray xa']> h)
    /\ array_sum xa' = array_sum xa.
Proof.
  intros Hself Hkl Hxl Hk Hx Hm Hn Hmass.
  exists (apply_spec k xa). split.
  - rewrite (call_same_shape self x h Hself Hkl Hxl Hk Hx Hm Hn).
    now rewrite (same_shape_contents_apply_spec m n k xa Hk Hx Hm Hn).
  - rewrite (array_sum_apply_spec m n k xa Hk Hx Hm Hn), Hmass. field.
Qed.

(** ** The kernel array across calls *)

(** C10, amended: for every prepared operator and every field that
    shares no memory with the stored kernel array, whatever the outcome
    of Apply, the contents of the kernel array after the call are its
    contents before.  (A field that is the kernel array or a view of it
    is the reference of the kernel array, see [loc].) *)
Theorem call_preserves_kernel {real cplx : Type} `{NumPy real cplx}
    (self : Convolve) (x kl : loc) (h : gmap loc (pyobj real))
    (k : ndarray real) :
  kernel self = Some (PyRef kl) -> h !! kl = Some (ObjArray k) ->
  shares_no_memory x kl ->
  snd (__call__ self x h) !! kl = Some (ObjArray k).
Proof.
  intros _ Hkl Hne. unfold shares_no_memory in Hne.
  rewrite call_frame by congruence. exact Hkl.
Qed.

(** C10 as stated fails when the field shares the memory of the
    kernel array: with the kernel array [[1, 0]], or a view of it,
    passed as the field, the call leaves [[0, 1]] in it. *)
Lemma call_on_kernel_changes_kernel :
  let k : ndarray R := [[1; 0]]%R in
  let h : gmap loc (pyobj R) := {[ 1%positive := ObjArray k ]} in
  let self := {| kernel := Some (PyRef 1%positive);
                 kernel_pattern := 2%positive;
                 init_keys := ["SCS"%string] |} in
  h !! 1%positive = Some (ObjArray k)
  /\ snd (__call__ self 1%positive h) !! 1%positive
     = Some (ObjArray [[0; 1]]%R)
  /\ snd (__call__ self 1%positive h) !! 1%positive <> h !! 1%positive.
Proof.
  intros k h self.
  assert (Hkl : h !! 1%positive = Some (ObjArray k)) by apply lookup_singleton_eq.
  assert (Hk : impulse_at 1 2 0 0 k).
  { split; [split; [reflexivity | repeat constructor]|].
    intros i j Hi Hj. destruct i as [|i]; [|lia].
    destruct j as [|[|j]]; [reflexivity | reflexivity | lia]. }
  assert (Hcall : snd (__call__ self 1%positive h) !! 1%positive
                  = Some (ObjArray [[0; 1]]%R)).
  { rewrite (call_same_shape self 1%positive h (m:=1) (n:=2) (k:=k) (xa:=k)
               eq_refl Hkl Hkl (proj1 Hk) (proj1 Hk)) by lia.
    cbn [snd]. rewrite lookup_insert_eq. do 2 f_equal.
    rewrite (same_shape_contents_apply_spec 1 2 k k (proj1 Hk) (proj1 Hk)) by lia.
    rewrite (apply_spec_impulse 1 2 0 0 k k Hk (proj1 Hk)) by lia.
    reflexivity. }
  split; [exact Hkl|]. split; [exact Hcall|].
  rewrite Hcall, Hkl. intros [= Heq]. lra.
Qed.

(** ** A call before [initialize] *)

(** C2 on the code: on a freshly constructed operator the attribute
    [kernel] exists, so the guard of [__call__] is passed; the call
    on the field [[1.0]] ends in the IndexError of [np.fft.fft2(None)]
    and not in the exception that names [init_keys].  The field is
    left as it was. *)
Theorem call_before_initialize :
  let h : gmap loc (pyobj R) := {[ 1%positive := ObjArray [[1%R]] ]} in
  let self := __init__ 2%positive in
  hasattr_kernel self = true
  /\ __call__ self 1%positive h = (Raise IndexError, h)
  /\ fst (__call__ self 1%positive h)
     <> Raise (Exception (not_initialized_msg self)).
Proof.
  intros h self.
  assert (Hcall : __call__ self 1%positive h = (Raise IndexError, h)).
  { apply (call_kernel_None self 1%positive h (m:=1) (n:=1) (xa:=[[1%R]])).
    - reflexivity.
    - apply lookup_singleton_eq.
    - split; [reflexivity | repeat constructor].
    - lia.
    - lia. }
  split; [reflexivity|]. split; [exact Hcall|].
  rewrite Hcall. discriminate.
Qed.

(** What the guard would raise: the message names ['SCS']. *)
Lemma not_initialized_msg_init (pattern : loc) :
  not_initialized_msg (__init__ pattern)
  = "Convolve has not been properly initialized with 'SCS'"%string.
Proof. reflexivity. Qed.

(** ** The theorems at sample inputs *)

Lemma has_shape_2_2 {A} (a b c d : A) : has_shape 2 2 [[a; b]; [c; d]].
Proof. split; [reflexivity | repeat constructor]. Defined.

Lemma impulse_at_centre_impulse m n :
  impulse_at m n (m / 2) (n / 2) (centre_impulse m n).
Proof.
  split; [apply has_shape_mk2|].
  intros i j Hi Hj. unfold centre_impulse. now rewrite item_mk2.
Defined.

Lemma call_computes_apply_spec_witness :
  let k : ndarray R := [[0; 1]; [1; 2]]%R in
  let xa : ndarray R := [[1; 2]; [3; 4]]%R in
  has_shape 2 2 k /\ has_shape 2 2 xa
  /\ __call__ prepared_operator 2%positive (sample_store k xa)
     = (Return tt,
        <[2%positive := ObjArray (mk2 2 2 (fun i j =>
             (0 + item 0 (apply_spec_np k xa) i j)%R))]> (sample_store k xa))
  /\ ((forall v : R, (0 + v)%R = v) ->
      __call__ prepared_operator 2%positive (sample_store k xa)
      = (Return tt,
         <[2%positive := ObjArray (apply_spec_np k xa)]> (sample_store k xa))).
Proof.
  intros k xa. split; [apply has_shape_2_2|]. split; [apply has_shape_2_2|].
  apply (@call_computes_apply_spec R complex exact_numpy
           prepared_operator 2%positive 1%positive
           (sample_store k xa) 2 2 k xa).
  - reflexivity.
  - reflexivity.
  - reflexivity.
  - apply has_shape_2_2.
  - apply has_shape_2_2.
  - lia.
  - lia.
Defined.

Lemma identity_kernel_witness :
  let k : ndarray R := centre_impulse 2 2 in
  let xa : ndarray R := [[1; 2]; [3; 4]]%R in
  k = [[0; 0]; [0; 1]]%R
  /\ __call__ prepared_operator 2%positive (sample_store k xa)
     = (Return tt, sample_store k xa).
Proof.
  intros k xa. split; [reflexivity|].
  apply (identity_kernel prepared_operator 2%positive 1%positive
           (sample_store k xa) 2 2 k xa).
  - reflexivity.
  - reflexivity.
  - reflexivity.
  - apply impulse_at_centre_impulse.
  - apply has_shape_2_2.
  - lia.
  - lia.
Defined.

Lemma mass_preserved_witness :
  let k : ndarray R := [[0; 1 / 2]; [1 / 2; 0]]%R in
  let xa : ndarray R := [[1; 2]; [3; 4]]%R in
  array_sum k = 1%R
  /\ exists xa',
       __call__ prepared_operator 2%positive (sample_store k xa)
       = (Return tt, <[2%positive := ObjArray xa']> (sample_store k xa))
       /\ array_sum xa' = array_sum xa.
Proof.
  intros k xa.
  assert (Hmass : array_sum k = 1%R)
    by (cbv [array_sum Rlist_sum k concat app fold_right]; lra).
  split; [exact Hmass|].
  apply (mass_preserved prepared_operator 2%positive 1%positive
           (sample_store k xa) 2 2 k xa).
  - reflexivity.
  - reflexivity.
  - reflexivity.
  - apply has_shape_2_2.
  - apply has_shape_2_2.
  - lia.
  - lia.
  - exact Hmass.
Defined.

Lemma call_in_place_witness :
  let k : ndarray R := [[0; 1]; [1; 2]]%R in
  let xa : ndarray R := [[1; 2]; [3; 4]]%R in
  let h := sample_store k xa in
  h !! 2%positive = Some (ObjArray xa)
  /\ exists xa',
       has_shape 2 2 xa'
       /\ snd (__call__ prepared_operator 2%positive h)
          = <[2%positive := ObjArray xa']> h
       /\ dom (snd (__call__ prepared_operator 2%positive h)) = dom h
       /\ (forall alias : loc, alias = 2%positive ->
             snd (__call__ prepared_operator 2%positive h) !! alias
             = Some (ObjArray xa'))
       /\ (fst (__call__ prepared_operator 2%positive h) = Return tt ->
           exists kv k' c,
             kernel prepared_operator = Some kv /\ as_array h kv = Return k'
             /\ convolved k' xa = Return c
             /\ iadd (fill_zero xa) c = Return xa')
       /\ (forall (kl : loc) (k' : ndarray R),
             kernel prepared_operator = Some (PyRef kl) ->
             h !! kl = Some (ObjArray k') ->
             has_shape 2 2 k' -> 0 < 2 -> 0 < 2 ->
             exists c,
               convolved (Some k') xa = Return c
               /\ fst (__call__ prepared_operator 2%positive h) = Return tt
               /\ xa' = mk2 2 2 (fun i j => (0 + item 0 c i j)%R)).
Proof.
  intros k xa h. split; [reflexivity|].
  apply (@call_in_place R complex exact_numpy
           prepared_operator 2%positive h 2 2 xa).
  - reflexivity.
  - apply has_shape_2_2.
Defined.

Lemma zero_mass_kernel_inf_nan_witness :
  let k : ndarray float64 := [[f64_zero; f64_one]; [SFopp f64_one; f64_zero]] in
  let xa : ndarray float64 := [[f64_one; f64_zero]; [f64_one; f64_one]] in
  let h := sample_store k xa in
  is_zero (sample_sum k) = true
  /\ exists xa',
       @__call__ float64 complex128
         (float64_numpy sample_sum sample_dft sample_idft)
         prepared_operator 2%positive h
       = (Return tt, <[2%positive := ObjArray xa']> h)
       /\ has_shape 2 2 xa'
       /\ Forall (Forall (fun v => is_inf_or_nan v = true)) xa'.
Proof.
  intros k xa h. split; [reflexivity|].
  apply (@zero_mass_kernel_inf_nan sample_sum sample_dft sample_idft
           prepared_operator 2%positive 1%positive h 2 2 k xa).
  - reflexivity.
  - reflexivity.
  - reflexivity.
  - apply has_shape_2_2.
  - apply has_shape_2_2.
  - lia.
  - lia.
  - reflexivity.
Defined.

Lemma call_deterministic_witness :
  let k : ndarray R := [[0; 1]; [1; 2]]%R in
  let xa : ndarray R := [[1; 2]; [3; 4]]%R in
  let h1 := sample_store k xa in
  let h2 : gmap loc (pyobj R) :=
    <[7%positive := ObjArray xa]> {[ 1%positive := ObjArray k ]} in
  h1 !! 2%positive = Some (ObjArray xa) /\ h2 !! 7%positive = Some (ObjArray xa)
  /\ fst (__call__ prepared_operator 2%positive h1)
     = fst (__call__ prepared_operator 7%positive h2)
  /\ snd (__call__ prepared_operator 2%positive h1) !! 2%positive
     = snd (__call__ prepared_operator 7%positive h2) !! 7%positive.
Proof.
  intros k xa h1 h2. split; [reflexivity|]. split; [reflexivity|].
  apply (@call_deterministic R complex exact_numpy
           prepared_operator prepared_operator
           2%positive 7%positive 1%positive 1%positive h1 h2 k xa);
    reflexivity.
Defined.

Lemma call_preserves_kernel_witness :
  let k : ndarray R := [[0; 1]; [1; 2]]%R in
  let xa : ndarray R := [[1; 2]; [3; 4]]%R in
  let h := sample_store k xa in
  shares_no_memory 2%positive 1%positive
  /\ snd (__call__ prepared_operator 2%positive h) !! 1%positive
     = Some (ObjArray k).
Proof.
  intros k xa h. split; [discriminate|].
  apply (@call_preserves_kernel R complex exact_numpy
           prepared_operator 2%positive 1%positive h k).
  - reflexivity.
  - reflexivity.
  - discriminate.
Defined.

(** [initialize] returns on a store that holds the kernel
    specification, when the coordinate system is given. *)
Lemma initialize_returns :
  let h : gmap loc (pyobj R) := {[ 3%positive := ObjPattern sample_pattern ]} in
  let kwargs : gmap string (SheetCoordinateSystem R) :=
    {[ "SCS"%string := sample_scs ]} in
  fst (fst (initialize sample_composite (__init__ 3%positive) kwargs h))
  = Return tt.
Proof. reflexivity. Qed.

(** [np.roll] on small inputs. *)
Example roll_right : roll 2 [0; 1; 2; 3; 4] = [3; 4; 0; 1; 2].
Proof. reflexivity. Qed.

Example roll_left : roll (-1) [0; 1; 2; 3; 4] = [1; 2; 3; 4; 0].
Proof. reflexivity. Qed.

Example roll_rows_cols_small :
  roll_rows (-1) (roll_cols (-1) [[1; 2]; [3; 4]]) = [[4; 3]; [2; 1]].
Proof. reflexivity. Qed.

(** * Further properties of [Convolve] *)

(** ** The convolution theorem *)

Section Convolution.
Local Open Scope R_scope.
Implicit Types (k xa : ndarray R).

Lemma idft2_Csum m n p (G : nat -> nat -> nat -> complex) i j :
  idft2 m n (fun u v => Csum p (fun a => G a u v)) i j
  = Csum p (fun a => idft2 m n (G a) i j).
Proof.
  unfold idft2. rewrite Cscale_mul.
  rewrite (Csum_ext p _ (fun a => Cmul (RtoC (/ (INR m * INR n)))
             (Csum m (fun u => Csum n (fun v =>
                Cmul (G a u v)
                  (Cmul (twiddle_inv m (u * i)) (twiddle_inv n (v * j))))))))
    by (intros; apply Cscale_mul).
  rewrite Csum_mul_l. f_equal.
  rewrite (Csum_swap p m). apply Csum_ext. intros u _.
  rewrite (Csum_swap p n). apply Csum_ext. intros v _.
  now rewrite Csum_mul_r.
Qed.

Lemma idft2_mul_l m n (c : complex) (G : nat -> nat -> complex) i j :
  idft2 m n (fun u v => Cmul c (G u v)) i j = Cmul c (idft2 m n G i j).
Proof.
  unfold idft2. rewrite !Cscale_mul.
  rewrite (Csum_ext m _ (fun u => Cmul c (Csum n (fun v =>
             Cmul (G u v)
               (Cmul (twiddle_inv m (u * i)) (twiddle_inv n (v * j))))))).
  - rewrite Csum_mul_l. ring.
  - intros u _. rewrite <- Csum_mul_l. apply Csum_ext. intros v _. ring.
Qed.

(** The inverse transform of a product of transforms is the circular
    convolution. *)
Lemma convolution_theorem m n (F G : nat -> nat -> complex) i j :
  (0 < m)%nat -> (0 < n)%nat -> (i < m)%nat -> (j < n)%nat ->
  idft2 m n (fun u v => Cmul (dft2 m n F u v) (dft2 m n G u v)) i j
  = Csum m (fun a => Csum n (fun b =>
      Cmul (F a b) (G ((i + (m - a)) mod m)%nat ((j + (n - b)) mod n)%nat))).
Proof.
  intros Hm Hn Hi Hj.
  set (S := fun a b a' b' =>
              G ((a' + (m - a)) mod m)%nat ((b' + (n - b)) mod n)%nat).
  rewrite (idft2_ext m n _ (fun u v => Csum m (fun a =>
             (fun a u v => Csum n (fun b =>
                (fun b u v => Cmul (F a b) (dft2 m n (S a b) u v)) b u v))
             a u v))).
  - rewrite (idft2_Csum m n m). apply Csum_ext. intros a Ha.
    rewrite (idft2_Csum m n n). apply Csum_ext. intros b Hb.
    rewrite idft2_mul_l. f_equal.
    now apply (idft2_dft2 m n (S a b)).
  - intros u v _ _. cbn beta. unfold dft2 at 1.
    rewrite <- Csum_mul_r. apply Csum_ext. intros a Ha.
    rewrite <- Csum_mul_r. apply Csum_ext. intros b Hb.
    unfold S. rewrite (dft2_shift m n a b G u v) by assumption. ring.
Qed.

Lemma Csum2_RtoC m n (f : nat -> nat -> R) :
  Csum m (fun a => Csum n (fun b => RtoC (f a b)))
  = RtoC (Rsum m (fun a => Rsum n (f a))).
Proof.
  rewrite RtoC_Rsum. apply Csum_ext. intros a _. now rewrite RtoC_Rsum.
Qed.

(** The product of the transforms, inverted, is the circular
    convolution of the field with the kernel array, as a real number. *)
Lemma idft2_product_circ_conv m n k xa i j :
  (0 < m)%nat -> (0 < n)%nat -> (i < m)%nat -> (j < n)%nat ->
  idft2 m n (fun u v =>
    Cmul (dft2 m n (fun a b => RtoC (item 0 xa a b)) u v)
         (dft2 m n (fun a b => RtoC (item 0 k a b)) u v)) i j
  = RtoC (circ_conv m n k xa i j).
Proof.
  intros Hm Hn Hi Hj. rewrite convolution_theorem by assumption.
  unfold circ_conv. rewrite <- Csum2_RtoC.
  apply Csum_ext. intros a _. apply Csum_ext. intros b _.
  now rewrite RtoC_mul.
Qed.

Lemma raw_convolved_circ_conv m n k xa i j :
  has_shape m n k -> (0 < m)%nat -> (0 < n)%nat -> (i < m)%nat -> (j < n)%nat ->
  raw_convolved_spec k xa i j = circ_conv m n k xa i j.
Proof.
  intros Hk Hm Hn Hi Hj. unfold raw_convolved_spec.
  rewrite (has_shape_nrows Hk), (has_shape_ncols Hk Hm).
  now rewrite idft2_product_circ_conv.
Qed.

(** Circular convolution is commutative. *)
Lemma circ_conv_comm m n k xa i j :
  (0 < m)%nat -> (0 < n)%nat -> (i < m)%nat -> (j < n)%nat ->
  circ_conv m n k xa i j = circ_conv m n xa k i j.
Proof.
  intros Hm Hn Hi Hj.
  pose proof (idft2_product_circ_conv m n k xa i j Hm Hn Hi Hj) as H1.
  pose proof (idft2_product_circ_conv m n xa k i j Hm Hn Hi Hj) as H2.
  rewrite (idft2_ext m n _ (fun u v =>
             Cmul (dft2 m n (fun a b => RtoC (item 0 k a b)) u v)
                  (dft2 m n (fun a b => RtoC (item 0 xa a b)) u v)))
    in H1 by (intros; ring).
  rewrite H1 in H2. now injection H2.
Qed.

(** What Apply leaves in the field, as a centred circular convolution. *)
Lemma apply_spec_circ_conv m n k xa :
  has_shape m n k -> (0 < m)%nat -> (0 < n)%nat ->
  apply_spec k xa
  = mk2 m n (fun i j =>
      circ_conv m n k xa ((i + m / 2) mod m)%nat ((j + n / 2) mod n)%nat
      / array_sum k).
Proof.
  intros Hk Hm Hn. unfold apply_spec.
  rewrite (has_shape_nrows Hk), (has_shape_ncols Hk Hm).
  apply mk2_ext. intros i j Hi Hj.
  rewrite !shifted_from_neg by assumption.
  now rewrite (raw_convolved_circ_conv m n k xa)
    by (try assumption; apply Nat.mod_upper_bound; lia).
Qed.
End Convolution.

(** ** Apply as a centred, normalized circular convolution *)

Section ConvolutionFacts.
Local Open Scope R_scope.
Implicit Types (k xa : ndarray R).

Lemma Rsum_add n (f g : nat -> R) :
  Rsum n (fun i => f i + g i) = Rsum n f + Rsum n g.
Proof. induction n as [|n IH]; cbn; [|rewrite IH]; ring. Qed.

Lemma Rsum_mul_l n (c : R) (f : nat -> R) :
  Rsum n (fun i => c * f i) = c * Rsum n f.
Proof. induction n as [|n IH]; cbn; [|rewrite IH]; ring. Qed.

Lemma Rsum_zero n : Rsum n (fun _ => 0) = 0.
Proof. induction n as [|n IH]; cbn; [|rewrite IH]; ring. Qed.

Lemma Rsum_single n (f : nat -> R) a :
  (a < n)%nat -> (forall i, (i < n)%nat -> i <> a -> f i = 0) ->
  Rsum n f = f a.
Proof.
  induction n as [|n IH]; intros Ha Hf; [lia|]. cbn.
  destruct (Nat.eq_dec a n) as [->|Hne].
  - rewrite (Rsum_ext n f (fun _ => 0)) by (intros; apply Hf; lia).
    rewrite Rsum_zero. ring.
  - rewrite IH by (try intros; try apply Hf; lia).
    rewrite (Hf n) by lia. ring.
Qed.

Lemma Rsum_le n (f g : nat -> R) :
  (forall i, (i < n)%nat -> f i <= g i) -> Rsum n f <= Rsum n g.
Proof.
  induction n as [|n IH]; intros Hfg; cbn; [lra|].
  pose proof (Hfg n ltac:(lia)). pose proof (IH ltac:(intros; apply Hfg; lia)).
  lra.
Qed.

Lemma array_sum_items m n xa :
  has_shape m n xa ->
  array_sum xa = Rsum m (fun i => Rsum n (fun j => item 0 xa i j)).
Proof.
  intros Hx. rewrite <- (mk2_item 0 Hx) at 1. apply array_sum_mk2.
Qed.

Lemma Forall_item (P : R -> Prop) m n xa i j :
  has_shape m n xa -> Forall (Forall P) xa -> (i < m)%nat -> (j < n)%nat ->
  P (item 0 xa i j).
Proof.
  intros Hx HP Hi Hj. unfold item.
  rewrite List.Forall_forall in HP.
  assert (Hrow : In (nth i xa []) xa) by (apply nth_In; destruct Hx; lia).
  specialize (HP _ Hrow). rewrite List.Forall_forall in HP.
  apply HP, nth_In. now rewrite (has_shape_row Hx Hi).
Qed.

(** The prepared call, in exact arithmetic, through [apply_spec]. *)
Lemma call_apply_spec (self : Convolve) (x kl : loc) (h : gmap loc (pyobj R))
    m n k xa :
  kernel self = Some (PyRef kl) ->
  h !! kl = Some (ObjArray k) -> h !! x = Some (ObjArray xa) ->
  has_shape m n k -> has_shape m n xa -> (0 < m)%nat -> (0 < n)%nat ->
  __call__ self x h = (Return tt, <[x := ObjArray (apply_spec k xa)]> h).
Proof.
  intros Hself Hkl Hxl Hk Hx Hm Hn.
  rewrite (call_same_shape self x h Hself Hkl Hxl Hk Hx Hm Hn).
  now rewrite (same_shape_contents_apply_spec m n k xa Hk Hx Hm Hn).
Qed.

Lemma mod_lt_pos a m : (0 < m)%nat -> (a mod m < m)%nat.
Proof. intros. apply Nat.mod_upper_bound. lia. Qed.

(** Circular convolution is linear in the field. *)
Lemma circ_conv_linear m n k xa ya (al be : R) i j :
  circ_conv m n k
    (mk2 m n (fun a b => al * item 0 xa a b + be * item 0 ya a b)) i j
  = al * circ_conv m n k xa i j + be * circ_conv m n k ya i j.
Proof.
  unfold circ_conv.
  rewrite <- !Rsum_mul_l, <- Rsum_add. apply Rsum_ext. intros a Ha.
  rewrite <- !Rsum_mul_l, <- Rsum_add. apply Rsum_ext. intros b Hb.
  rewrite (item_mk2 _ _ Ha Hb). ring.
Qed.

(** Circular convolution is linear in the kernel array. *)
Lemma circ_conv_scale_kernel m n k xa (c : R) i j :
  (0 < m)%nat -> (0 < n)%nat ->
  circ_conv m n (mk2 m n (fun a b => c * item 0 k a b)) xa i j
  = c * circ_conv m n k xa i j.
Proof.
  intros Hm Hn. unfold circ_conv.
  rewrite <- Rsum_mul_l. apply Rsum_ext. intros a Ha.
  rewrite <- Rsum_mul_l. apply Rsum_ext. intros b Hb.
  rewrite item_mk2 by (apply mod_lt_pos; assumption). ring.
Qed.

(** Convolving a unit impulse at (r, c) reads the kernel array. *)
Lemma circ_conv_impulse_field m n r c k xa i j :
  impulse_at m n r c xa -> (r < m)%nat -> (c < n)%nat ->
  circ_conv m n k xa i j
  = item 0 k ((i + (m - r)) mod m)%nat ((j + (n - c)) mod n)%nat.
Proof.
  intros [Hx Himp] Hr Hc. unfold circ_conv.
  rewrite (Rsum_single m _ r Hr).
  - rewrite (Rsum_single n _ c Hc).
    + rewrite (Himp r c Hr Hc), !Nat.eqb_refl. cbn [andb]. ring.
    + intros b Hb Hne. rewrite (Himp r b Hr Hb), Nat.eqb_refl.
      destruct (Nat.eqb_spec b c); [contradiction|]. cbn [andb]. ring.
  - intros a Ha Hne. rewrite (Rsum_ext n _ (fun _ => 0)); [apply Rsum_zero|].
    intros b Hb. rewrite (Himp a b Ha Hb).
    destruct (Nat.eqb_spec a r); [contradiction|]. cbn [andb]. ring.
Qed.

(** The same sum, indexed by the kernel array. *)
Lemma circ_conv_by_kernel m n k xa i j :
  (0 < m)%nat -> (0 < n)%nat -> (i < m)%nat -> (j < n)%nat ->
  circ_conv m n k xa i j
  = Rsum m (fun a => Rsum n (fun b =>
      item 0 k a b
      * item 0 xa ((i + (m - a)) mod m)%nat ((j + (n - b)) mod n)%nat)).
Proof. intros. now rewrite circ_conv_comm. Qed.
End ConvolutionFacts.

(** X1: in exact arithmetic, for a prepared operator whose kernel
    array has a sum that is not zero and a field of the shape (m, n) of
    the kernel array, Apply leaves at (i, j) the circular convolution
    of the field with the kernel array taken at ((i + m/2) mod m,
    (j + n/2) mod n), divided by the sum of the kernel array. *)
Theorem call_circular_convolution
    (self : Convolve) (x kl : loc) (h : gmap loc (pyobj R))
    (m n : nat) (k xa : ndarray R) :
  kernel self = Some (PyRef kl) ->
  h !! kl = Some (ObjArray k) -> h !! x = Some (ObjArray xa) ->
  has_shape m n k -> has_shape m n xa -> 0 < m -> 0 < n ->
  array_sum k <> 0%R ->
  __call__ self x h
  = (Return tt,
     <[x := ObjArray (mk2 m n (fun i j =>
             (circ_conv m n k xa ((i + m / 2) mod m) ((j + n / 2) mod n)
              / array_sum k)%R))]> h).
Proof.
  intros Hself Hkl Hxl Hk Hx Hm Hn _.
  rewrite (call_apply_spec self x kl h m n k xa Hself Hkl Hxl Hk Hx Hm Hn).
  now rewrite (apply_spec_circ_conv m n k xa Hk Hm Hn).
Qed.

(** X2: on a field and a kernel array of the same shape, the array
    that [np.fft.ifft2(fft1 * fft2)] returns holds the circular
    convolution as real numbers: its imaginary parts are zero, so
    [.real] discards nothing. *)
Theorem inverse_transform_is_real
    (m n : nat) (k xa : ndarray R) (f1 f2 prod inv : ndarray complex) :
  has_shape m n k -> has_shape m n xa -> 0 < m -> 0 < n ->
  fft2 (Some xa) = Return f1 -> fft2 (Some k) = Return f2 ->
  multiply f1 f2 = Return prod -> ifft2 prod = Return inv ->
  inv = mk2 m n (fun i j => RtoC (circ_conv m n k xa i j))
  /\ Forall (Forall (fun z => Im z = 0%R)) inv.
Proof.
  intros Hk Hx Hm Hn H1 H2 Hp Hinv.
  rewrite (fft2_shape Hx Hm Hn) in H1. rewrite (fft2_shape Hk Hm Hn) in H2.
  injection H1 as <-. injection H2 as <-.
  rewrite multiply_same_shape in Hp by exact Hm. injection Hp as <-.
  rewrite ifft2_shape in Hinv by assumption. injection Hinv as Hinv.
  assert (Heq : inv = mk2 m n (fun i j => RtoC (circ_conv m n k xa i j))).
  { rewrite <- Hinv. apply mk2_ext. intros i j Hi Hj.
    cbn [np_idft2 np_cmul np_dft2 exact_numpy].
    rewrite nrows_mk2, (ncols_mk2 _ _ Hm).
    rewrite <- (idft2_product_circ_conv m n k xa i j) by assumption.
    apply idft2_ext. intros u v Hu Hv. rewrite (item_mk2 _ _ Hu Hv).
    now rewrite (has_shape_nrows Hx), (has_shape_ncols Hx Hm),
      (has_shape_nrows Hk), (has_shape_ncols Hk Hm). }
  split; [exact Heq|]. rewrite Heq. apply Forall_mk2. reflexivity.
Qed.

Section ConvolutionLaws.
Local Open Scope R_scope.
Implicit Types (k xa : ndarray R).

Lemma item_apply_spec m n k xa i j :
  has_shape m n k -> (0 < m)%nat -> (0 < n)%nat -> (i < m)%nat -> (j < n)%nat ->
  item 0 (apply_spec k xa) i j
  = circ_conv m n k xa ((i + m / 2) mod m)%nat ((j + n / 2) mod n)%nat
    / array_sum k.
Proof.
  intros Hk Hm Hn Hi Hj.
  rewrite (apply_spec_circ_conv m n k xa Hk Hm Hn).
  now rewrite (item_mk2 _ _ Hi Hj).
Qed.

Lemma has_shape_apply_spec m n k xa :
  has_shape m n k -> (0 < m)%nat -> (0 < n)%nat ->
  has_shape m n (apply_spec k xa).
Proof.
  intros Hk Hm Hn. rewrite (apply_spec_circ_conv m n k xa Hk Hm Hn).
  apply has_shape_mk2.
Qed.

Lemma apply_spec_linear m n k xa ya (al be : R) :
  has_shape m n k -> (0 < m)%nat -> (0 < n)%nat ->
  apply_spec k (mk2 m n (fun i j => al * item 0 xa i j + be * item 0 ya i j))
  = mk2 m n (fun i j =>
      al * item 0 (apply_spec k xa) i j + be * item 0 (apply_spec k ya) i j).
Proof.
  intros Hk Hm Hn. rewrite (apply_spec_circ_conv m n k _ Hk Hm Hn).
  apply mk2_ext. intros i j Hi Hj.
  rewrite !(item_apply_spec m n k) by assumption.
  rewrite circ_conv_linear. unfold Rdiv. ring.
Qed.

Lemma array_sum_scale m n k (c : R) :
  has_shape m n k ->
  array_sum (mk2 m n (fun i j => c * item 0 k i j)) = c * array_sum k.
Proof.
  intros Hk. rewrite array_sum_mk2, (array_sum_items m n k Hk).
  rewrite <- Rsum_mul_l. apply Rsum_ext. intros i _. apply Rsum_mul_l.
Qed.

Lemma apply_spec_scale_kernel m n k xa (c : R) :
  has_shape m n k -> (0 < m)%nat -> (0 < n)%nat -> c <> 0 ->
  apply_spec (mk2 m n (fun i j => c * item 0 k i j)) xa = apply_spec k xa.
Proof.
  intros Hk Hm Hn Hc.
  rewrite (apply_spec_circ_conv m n _ xa (has_shape_mk2 m n _) Hm Hn).
  rewrite (apply_spec_circ_conv m n k xa Hk Hm Hn).
  apply mk2_ext. intros i j Hi Hj.
  rewrite circ_conv_scale_kernel, (array_sum_scale m n k c Hk) by assumption.
  unfold Rdiv. rewrite Rinv_mult.
  set (A := circ_conv m n k xa _ _).
  replace (c * A * (/ c * / array_sum k))
    with ((c * / c) * (A * / array_sum k)) by ring.
  rewrite Rinv_r by assumption. ring.
Qed.

Lemma apply_spec_constant m n k (c : R) :
  has_shape m n k -> (0 < m)%nat -> (0 < n)%nat -> array_sum k <> 0 ->
  apply_spec k (mk2 m n (fun _ _ => c)) = mk2 m n (fun _ _ => c).
Proof.
  intros Hk Hm Hn Hs. rewrite (apply_spec_circ_conv m n k _ Hk Hm Hn).
  apply mk2_ext. intros i j Hi Hj.
  rewrite circ_conv_by_kernel by (try assumption; apply mod_lt_pos; assumption).
  rewrite (Rsum_ext m _ (fun a => Rsum n (fun b => item 0 k a b) * c)).
  - rewrite Rsum_mul_r, <- (array_sum_items m n k Hk). now field.
  - intros a Ha. rewrite <- Rsum_mul_r. apply Rsum_ext. intros b Hb.
    now rewrite item_mk2 by (apply mod_lt_pos; assumption).
Qed.

(** A weighted mean with the weights of the kernel array. *)
Lemma circ_conv_bounds m n k xa (lo hi : R) i j :
  has_shape m n k -> has_shape m n xa -> (0 < m)%nat -> (0 < n)%nat ->
  (i < m)%nat -> (j < n)%nat ->
  Forall (Forall (fun v => 0 <= v)) k ->
  Forall (Forall (fun v => lo <= v <= hi)) xa ->
  lo * array_sum k <= circ_conv m n k xa i j <= hi * array_sum k.
Proof.
  intros Hk Hx Hm Hn Hi Hj Hpos Hrange.
  rewrite circ_conv_by_kernel by assumption.
  rewrite (array_sum_items m n k Hk), <- !Rsum_mul_l.
  assert (Hterm : forall a b, (a < m)%nat -> (b < n)%nat ->
            lo * item 0 k a b
            <= item 0 k a b
               * item 0 xa ((i + (m - a)) mod m)%nat ((j + (n - b)) mod n)%nat
            <= hi * item 0 k a b).
  { intros a b Ha Hb.
    pose proof (Forall_item _ m n k a b Hk Hpos Ha Hb) as Hkab.
    pose proof (Forall_item _ m n xa _ _ Hx Hrange
                  (mod_lt_pos (i + (m - a)) m Hm)
                  (mod_lt_pos (j + (n - b)) n Hn)) as Hxab.
    cbn beta in Hkab, Hxab. nra. }
  split.
  - apply Rsum_le. intros a Ha. rewrite <- Rsum_mul_l.
    apply Rsum_le. intros b Hb. apply Hterm; assumption.
  - apply Rsum_le. intros a Ha. rewrite <- Rsum_mul_l.
    apply Rsum_le. intros b Hb. apply Hterm; assumption.
Qed.

Lemma shifted_from_nat m r i :
  (0 < m)%nat ->
  shifted_from m (Z.of_nat r) i = ((i + (m - r mod m)) mod m)%nat.
Proof.
  intros Hm. unfold shifted_from.
  pose proof (Nat.mod_upper_bound r m ltac:(lia)) as Hr.
  apply Nat2Z.inj. rewrite Z2Nat.id by (apply Z.mod_pos_bound; lia).
  rewrite Nat2Z.inj_mod, Nat2Z.inj_add, Nat2Z.inj_sub by lia.
  rewrite Nat2Z.inj_mod.
  rewrite (Z.mod_eq (Z.of_nat r) (Z.of_nat m)) by lia.
  replace (Z.of_nat i
           + (Z.of_nat m
              - (Z.of_nat r - Z.of_nat m * (Z.of_nat r / Z.of_nat m))))%Z
    with (Z.of_nat i - Z.of_nat r
          + (1 + Z.of_nat r / Z.of_nat m) * Z.of_nat m)%Z by ring.
  now rewrite Z_mod_plus_full.
Qed.

Lemma has_shape_shifted m n r c xa :
  has_shape m n xa -> has_shape m n (shifted r c xa).
Proof. intros Hx. now apply has_shape_roll_rows, has_shape_roll_cols. Qed.

Lemma item_shifted m n r c xa i j :
  has_shape m n xa -> (i < m)%nat -> (j < n)%nat ->
  item 0 (shifted r c xa) i j
  = item 0 xa ((i + (m - r mod m)) mod m)%nat ((j + (n - c mod n)) mod n)%nat.
Proof.
  intros Hx Hi Hj. unfold shifted.
  rewrite (item_roll_rows_cols 0 _ _ Hx Hi Hj).
  now rewrite !shifted_from_nat by lia.
Qed.

Lemma add_mod_3 a b c m :
  (((a mod m + b) mod m + c) mod m = (a + b + c) mod m)%nat.
Proof.
  rewrite Nat.Div0.add_mod_idemp_l, <- Nat.add_assoc.
  now rewrite Nat.Div0.add_mod_idemp_l, Nat.add_assoc.
Qed.

Lemma apply_spec_shifted m n r c k xa :
  has_shape m n k -> has_shape m n xa -> (0 < m)%nat -> (0 < n)%nat ->
  apply_spec k (shifted r c xa) = shifted r c (apply_spec k xa).
Proof.
  intros Hk Hx Hm Hn.
  pose proof (has_shape_shifted m n r c _ (has_shape_apply_spec m n k xa Hk Hm Hn))
    as Hs.
  rewrite <- (mk2_item 0 Hs).
  rewrite (apply_spec_circ_conv m n k _ Hk Hm Hn).
  apply mk2_ext. intros i j Hi Hj.
  rewrite (item_shifted m n r c _ i j
             (has_shape_apply_spec m n k xa Hk Hm Hn) Hi Hj).
  rewrite (item_apply_spec m n k xa) by (try assumption; apply mod_lt_pos; assumption).
  f_equal.
  rewrite !circ_conv_by_kernel by (try assumption; apply mod_lt_pos; assumption).
  apply Rsum_ext. intros a Ha. apply Rsum_ext. intros b Hb. f_equal.
  rewrite (item_shifted m n r c xa) by (try assumption; apply mod_lt_pos; assumption).
  f_equal.
  - rewrite !add_mod_3. f_equal. lia.
  - rewrite !add_mod_3. f_equal. lia.
Qed.
End ConvolutionLaws.

(** X3: in exact arithmetic and for a kernel array whose sum is not
    zero, Apply is linear in the field.  On the field
    [al * xa + be * ya] a prepared operator leaves
    [al * A + be * B], where [A] and [B] are what it leaves on [xa]
    and on [ya]. *)
Theorem call_linear
    (self : Convolve) (x kl : loc) (h : gmap loc (pyobj R))
    (m n : nat) (k xa ya : ndarray R) (al be : R) :
  kernel self = Some (PyRef kl) ->
  h !! kl = Some (ObjArray k) ->
  h !! x = Some (ObjArray
             (mk2 m n (fun i j =>
                (al * item 0 xa i j + be * item 0 ya i j)%R))) ->
  has_shape m n k -> has_shape m n xa -> has_shape m n ya -> 0 < m -> 0 < n ->
  array_sum k <> 0%R ->
  __call__ self x h
  = (Return tt,
     <[x := ObjArray (mk2 m n (fun i j =>
             (al * item 0 (apply_spec k xa) i j
              + be * item 0 (apply_spec k ya) i j)%R))]> h).
Proof.
  intros Hself Hkl Hxl Hk _ _ Hm Hn _.
  rewrite (call_apply_spec self x kl h m n k _ Hself Hkl Hxl Hk
             (has_shape_mk2 m n _) Hm Hn).
  now rewrite (apply_spec_linear m n k xa ya al be Hk Hm Hn).
Qed.

(** X4: in exact arithmetic, the normalization makes Apply independent
    of the scale of the kernel: with the kernel array [c * k], [c] not
    zero and the sum of [k] not zero, a prepared operator leaves in the
    field what it leaves with the kernel array [k]. *)
Theorem call_kernel_scale_invariant
    (self : Convolve) (x kl : loc) (h : gmap loc (pyobj R))
    (m n : nat) (k xa : ndarray R) (c : R) :
  kernel self = Some (PyRef kl) ->
  h !! kl = Some (ObjArray (mk2 m n (fun i j => (c * item 0 k i j)%R))) ->
  h !! x = Some (ObjArray xa) ->
  has_shape m n k -> has_shape m n xa -> 0 < m -> 0 < n -> c <> 0%R ->
  array_sum k <> 0%R ->
  __call__ self x h = (Return tt, <[x := ObjArray (apply_spec k xa)]> h).
Proof.
  intros Hself Hkl Hxl Hk Hx Hm Hn Hc _.
  rewrite (call_apply_spec self x kl h m n _ xa Hself Hkl Hxl
             (has_shape_mk2 m n _) Hx Hm Hn).
  now rewrite (apply_spec_scale_kernel m n k xa c Hk Hm Hn Hc).
Qed.

(** X5: the response to a unit impulse, in exact arithmetic.  On a
    field that is 1 at (r, c) and 0 elsewhere, a prepared operator whose
    kernel array has a sum that is not zero leaves the kernel array
    moved so that its centre cell (m/2, n/2) lands on (r, c),
    cyclically, divided by its sum. *)
Theorem call_impulse_response
    (self : Convolve) (x kl : loc) (h : gmap loc (pyobj R))
    (m n r c : nat) (k xa : ndarray R) :
  kernel self = Some (PyRef kl) ->
  h !! kl = Some (ObjArray k) -> h !! x = Some (ObjArray xa) ->
  has_shape m n k -> impulse_at m n r c xa -> r < m -> c < n ->
  array_sum k <> 0%R ->
  __call__ self x h
  = (Return tt,
     <[x := ObjArray (mk2 m n (fun i j =>
             (item 0 k (((i + m / 2) mod m + (m - r)) mod m)
                       (((j + n / 2) mod n + (n - c)) mod n)
              / array_sum k)%R))]> h).
Proof.
  intros Hself Hkl Hxl Hk Himp Hr Hc _.
  assert (Hm : 0 < m) by lia. assert (Hn : 0 < n) by lia.
  rewrite (call_apply_spec self x kl h m n k xa Hself Hkl Hxl Hk
             (proj1 Himp) Hm Hn).
  rewrite (apply_spec_circ_conv m n k xa Hk Hm Hn).
  do 3 f_equal. apply mk2_ext. intros i j Hi Hj.
  now rewrite (circ_conv_impulse_field m n r c k xa _ _ Himp Hr Hc).
Qed.

(** X6: a constant field is a fixed point.  When the sum of the kernel
    array is not zero, Apply on a field whose elements all equal [c]
    returns and leaves the store as it was. *)
Theorem call_constant_field
    (self : Convolve) (x kl : loc) (h : gmap loc (pyobj R))
    (m n : nat) (k : ndarray R) (c : R) :
  kernel self = Some (PyRef kl) ->
  h !! kl = Some (ObjArray k) ->
  h !! x = Some (ObjArray (mk2 m n (fun _ _ => c))) ->
  has_shape m n k -> 0 < m -> 0 < n -> array_sum k <> 0%R ->
  __call__ self x h = (Return tt, h).
Proof.
  intros Hself Hkl Hxl Hk Hm Hn Hs.
  rewrite (call_apply_spec self x kl h m n k _ Hself Hkl Hxl Hk
             (has_shape_mk2 m n _) Hm Hn).
  rewrite (apply_spec_constant m n k c Hk Hm Hn Hs).
  now rewrite insert_id.
Qed.

(** X7: with a kernel array of non-negative elements and positive sum,
    Apply does not leave the range of the field: if every element of
    the field lies in [[lo, hi]], so does every element left in it. *)
Theorem call_range_bounded
    (self : Convolve) (x kl : loc) (h : gmap loc (pyobj R))
    (m n : nat) (k xa : ndarray R) (lo hi : R) :
  kernel self = Some (PyRef kl) ->
  h !! kl = Some (ObjArray k) -> h !! x = Some (ObjArray xa) ->
  has_shape m n k -> has_shape m n xa -> 0 < m -> 0 < n ->
  Forall (Forall (fun v => (0 <= v)%R)) k -> (0 < array_sum k)%R ->
  Forall (Forall (fun v => (lo <= v <= hi)%R)) xa ->
  exists xa',
    __call__ self x h = (Return tt, <[x := ObjArray xa']> h)
    /\ has_shape m n xa'
    /\ Forall (Forall (fun v => (lo <= v <= hi)%R)) xa'.
Proof.
  intros Hself Hkl Hxl Hk Hx Hm Hn Hpos Hs Hrange.
  eexists. split; [|split].
  - rewrite (call_apply_spec self x kl h m n k xa Hself Hkl Hxl Hk Hx Hm Hn).
    now rewrite (apply_spec_circ_conv m n k xa Hk Hm Hn).
  - apply has_shape_mk2.
  - apply Forall_mk2. intros i j Hi Hj.
    pose proof (circ_conv_bounds m n k xa lo hi
                  ((i + m / 2) mod m) ((j + n / 2) mod n) Hk Hx Hm Hn
                  (mod_lt_pos _ m Hm) (mod_lt_pos _ n Hn) Hpos Hrange)
      as [Hlo Hhi].
    set (A := circ_conv m n k xa _ _) in *.
    assert (Hinv : (0 < / array_sum k)%R) by now apply Rinv_0_lt_compat.
    assert (HA : (A / array_sum k - lo
                  = (A - lo * array_sum k) * / array_sum k)%R)
      by (field; lra).
    assert (HB : (hi - A / array_sum k
                  = (hi * array_sum k - A) * / array_sum k)%R)
      by (field; lra).
    assert (HA0 : (0 <= (A - lo * array_sum k) * / array_sum k)%R)
      by (apply Rmult_le_pos; lra).
    assert (HB0 : (0 <= (hi * array_sum k - A) * / array_sum k)%R)
      by (apply Rmult_le_pos; lra).
    lra.
Qed.

(** X8: in exact arithmetic and for a kernel array whose sum is not
    zero, Apply commutes with cyclic shifts of the field.  On the field
    moved by [r] rows and [c] columns a prepared operator leaves what
    it leaves on the field, moved by [r] rows and [c] columns. *)
Theorem call_shift_equivariant
    (self : Convolve) (x kl : loc) (h : gmap loc (pyobj R))
    (m n r c : nat) (k xa : ndarray R) :
  kernel self = Some (PyRef kl) ->
  h !! kl = Some (ObjArray k) -> h !! x = Some (ObjArray (shifted r c xa)) ->
  has_shape m n k -> has_shape m n xa -> 0 < m -> 0 < n ->
  array_sum k <> 0%R ->
  __call__ self x h
  = (Return tt, <[x := ObjArray (shifted r c (apply_spec k xa))]> h).
Proof.
  intros Hself Hkl Hxl Hk Hx Hm Hn _.
  rewrite (call_apply_spec self x kl h m n k _ Hself Hkl Hxl Hk
             (has_shape_shifted m n r c xa Hx) Hm Hn).
  now rewrite (apply_spec_shifted m n r c k xa Hk Hx Hm Hn).
Qed.

(** ** Fields that do not have the shape of the kernel array *)

Set Implicit Arguments.

Section ShapeErrors.
Context {real cplx : Type} `{NumPy real cplx}.
Implicit Types (k xa : ndarray real) (h : gmap loc (pyobj real)).

Lemma broadcast_dim_pos a b c :
  broadcast_dim a b = Some c -> 0 < a -> 0 < b -> 0 < c.
Proof.
  unfold broadcast_dim. intros Hc Ha Hb.
  destruct (a =? b); [injection Hc as <-; exact Ha|].
  destruct (a =? 1); [injection Hc as <-; exact Hb|].
  destruct (b =? 1); [injection Hc as <-; exact Ha | discriminate].
Qed.

Lemma multiply_shapes mx nx mk nk (f g : nat -> nat -> cplx) :
  0 < mx -> 0 < mk ->
  multiply (mk2 mx nx f) (mk2 mk nk g)
  = match broadcast_dim mx mk, broadcast_dim nx nk with
    | Some m, Some n =>
        Return (mk2 m n (fun i j =>
          np_cmul (item np_czero (mk2 mx nx f) (bidx mx i) (bidx nx j))
                  (item np_czero (mk2 mk nk g) (bidx mk i) (bidx nk j))))
    | _, _ => Raise ValueError
    end.
Proof.
  intros Hx Hk. unfold multiply.
  now rewrite !nrows_mk2, !(ncols_mk2 _ _ Hx), !(ncols_mk2 _ _ Hk).
Qed.

(** [convolved] on shapes that broadcast: a value of the broadcast
    shape. *)
Lemma convolved_broadcast mx nx mk nk m n k xa :
  has_shape mk nk k -> has_shape mx nx xa ->
  0 < mx -> 0 < nx -> 0 < mk -> 0 < nk ->
  broadcast_dim mx mk = Some m -> broadcast_dim nx nk = Some n ->
  exists c, convolved (Some k) xa = Return c /\ has_shape m n c.
Proof.
  intros Hk Hx Hmx Hnx Hmk Hnk Hm Hn.
  pose proof (broadcast_dim_pos Hm Hmx Hmk) as Hm0.
  pose proof (broadcast_dim_pos Hn Hnx Hnk) as Hn0.
  unfold convolved.
  rewrite (fft2_shape Hx Hmx Hnx), (fft2_shape Hk Hmk Hnk). cbn [bind].
  rewrite multiply_shapes by assumption. rewrite Hm, Hn. cbn [bind].
  rewrite ifft2_shape by assumption. cbn [bind].
  eexists. split; [reflexivity|].
  apply has_shape_map, has_shape_roll_rows, has_shape_roll_cols,
    has_shape_map, has_shape_mk2.
Qed.

Lemma convolved_not_broadcast mx nx mk nk k xa :
  has_shape mk nk k -> has_shape mx nx xa ->
  0 < mx -> 0 < nx -> 0 < mk -> 0 < nk ->
  broadcast_dim mx mk = None \/ broadcast_dim nx nk = None ->
  convolved (Some k) xa = Raise ValueError.
Proof.
  intros Hk Hx Hmx Hnx Hmk Hnk Hnone. unfold convolved.
  rewrite (fft2_shape Hx Hmx Hnx), (fft2_shape Hk Hmk Hnk). cbn [bind].
  rewrite multiply_shapes by assumption.
  destruct Hnone as [-> | ->]; [reflexivity|].
  now destruct (broadcast_dim mx mk).
Qed.

Lemma fill_zero_mk2 m n xa :
  has_shape m n xa -> fill_zero xa = mk2 m n (fun _ _ => np_zero).
Proof.
  intros Hx. unfold fill_zero.
  rewrite <- (mk2_item np_zero (has_shape_map (fun _ => np_zero) Hx)).
  apply mk2_ext. intros i j Hi Hj.
  now rewrite (item_map _ np_zero np_zero Hx Hi Hj).
Qed.

(** The shape that [x += c] refuses. *)
Lemma iadd_refused mx nx mk nk m n xa c :
  has_shape mx nx xa -> has_shape m n c -> 0 < mx -> 0 < m ->
  broadcast_dim mx mk = Some m -> broadcast_dim nx nk = Some n ->
  (m, n) <> (mx, nx) ->
  iadd xa c = Raise ValueError.
Proof.
  intros Hx Hc Hmx Hm0 Hm Hn Hne. unfold iadd.
  rewrite (has_shape_nrows Hx), (has_shape_ncols Hx Hmx),
    (has_shape_nrows Hc), (has_shape_ncols Hc Hm0).
  unfold broadcast_dim in *.
  repeat match goal with
         | Hb : context [?a =? ?b] |- _ => destruct (Nat.eqb_spec a b)
         | |- context [?a =? ?b] => destruct (Nat.eqb_spec a b)
         end; cbn [andb]; try reflexivity; try discriminate;
    try (injection Hm as <-); try (injection Hn as <-); subst;
    try reflexivity; try lia; try congruence; exfalso; apply Hne; f_equal; lia.
Qed.
End ShapeErrors.

(** X9: when the shapes of the field and of the kernel array do not
    broadcast, Apply raises the ValueError of [fft1 * fft2] and leaves
    the store, the field included, as it was. *)
Theorem call_shapes_do_not_broadcast {real cplx : Type} `{NumPy real cplx}
    (self : Convolve) (x kl : loc) (h : gmap loc (pyobj real))
    (mx nx mk nk : nat) (k xa : ndarray real) :
  kernel self = Some (PyRef kl) ->
  h !! kl = Some (ObjArray k) -> h !! x = Some (ObjArray xa) ->
  has_shape mk nk k -> has_shape mx nx xa ->
  0 < mx -> 0 < nx -> 0 < mk -> 0 < nk ->
  broadcast_dim mx mk = None \/ broadcast_dim nx nk = None ->
  __call__ self x h = (Raise ValueError, h).
Proof.
  intros Hself Hkl Hxl Hk Hx Hmx Hnx Hmk Hnk Hnone.
  rewrite (call_contents self x h Hself Hkl Hxl).
  now rewrite (convolved_not_broadcast Hk Hx Hmx Hnx Hmk Hnk Hnone).
Qed.

(** X10: when the shapes broadcast to a shape that is not the shape of
    the field (the field has an axis of length 1 where the kernel array
    is longer), Apply raises the ValueError of [x += convolved] after
    [x.fill(0.0)]: the field is left filled with zeros. *)
Theorem call_field_zeroed_on_error {real cplx : Type} `{NumPy real cplx}
    (self : Convolve) (x kl : loc) (h : gmap loc (pyobj real))
    (mx nx mk nk m n : nat) (k xa : ndarray real) :
  kernel self = Some (PyRef kl) ->
  h !! kl = Some (ObjArray k) -> h !! x = Some (ObjArray xa) ->
  has_shape mk nk k -> has_shape mx nx xa ->
  0 < mx -> 0 < nx -> 0 < mk -> 0 < nk ->
  broadcast_dim mx mk = Some m -> broadcast_dim nx nk = Some n ->
  (m, n) <> (mx, nx) ->
  __call__ self x h
  = (Raise ValueError,
     <[x := ObjArray (mk2 mx nx (fun _ _ => np_zero))]> h).
Proof.
  intros Hself Hkl Hxl Hk Hx Hmx Hnx Hmk Hnk Hm Hn Hne.
  rewrite (call_contents self x h Hself Hkl Hxl).
  destruct (convolved_broadcast Hk Hx Hmx Hnx Hmk Hnk Hm Hn) as (c & -> & Hc).
  rewrite (iadd_refused mk nk
             (has_shape_map (fun _ => np_zero) Hx : has_shape mx nx (fill_zero xa))
             Hc Hmx
             (broadcast_dim_pos Hm Hmx Hmk) Hm Hn Hne).
  now rewrite (fill_zero_mk2 Hx).
Qed.

(** X11: on a field with an axis of length 0 a prepared operator
    raises the ValueError of [np.fft.fft2(x)] and leaves the store as
    it was. *)
Theorem call_empty_field {real cplx : Type} `{NumPy real cplx}
    (self : Convolve) (x kl : loc) (h : gmap loc (pyobj real))
    (k xa : ndarray real) :
  kernel self = Some (PyRef kl) ->
  h !! kl = Some (ObjArray k) -> h !! x = Some (ObjArray xa) ->
  nrows xa = 0 \/ ncols xa = 0 ->
  __call__ self x h = (Raise ValueError, h).
Proof.
  intros Hself Hkl Hxl Hempty.
  rewrite (call_contents self x h Hself Hkl Hxl).
  unfold convolved, fft2.
  destruct Hempty as [-> | ->]; [reflexivity|].
  now rewrite orb_true_r.
Qed.

(** ** Preparation, and calls after it *)

Unset Implicit Arguments.

Section PreparationFacts.
Context {real : Type}.
Variable composite :
  PatternGenerator real -> SheetCoordinateSystem real -> ndarray real.
Implicit Types (h : gmap loc (pyobj real))
  (kwargs : gmap string (SheetCoordinateSystem real)).




End PreparationFacts.

(** X12: without the keyword argument [SCS], [initialize] raises and
    leaves the instance and the store as they were: the operator is
    not prepared. *)
Theorem initialize_without_scs {real : Type}
    (composite : PatternGenerator real -> SheetCoordinateSystem real -> ndarray real)
    (self : Convolve) (kwargs : gmap string (SheetCoordinateSystem real))
    (h : gmap loc (pyobj real)) :
  kwargs !! "SCS"%string = None ->
  exists e, initialize composite self kwargs h = (Raise e, self, h).
Proof.
  intros Hscs. unfold initialize.
  destruct (TransferFn_initialize self kwargs) as [[]|e]; [|eauto].
  rewrite Hscs. eauto.
Qed.




(** X16: in exact arithmetic and for a kernel array whose sum is not
    zero, calls on two fields that share no memory with each other nor
    with the kernel array do not disturb each other: after both, each
    field holds the result of Apply on its own contents and the kernel
    array is as it was. *)
Theorem calls_on_two_fields
    (self : Convolve) (x1 x2 kl : loc) (h : gmap loc (pyobj R))
    (m n : nat) (k xa1 xa2 : ndarray R) :
  kernel self = Some (PyRef kl) -> h !! kl = Some (ObjArray k) ->
  h !! x1 = Some (ObjArray xa1) -> h !! x2 = Some (ObjArray xa2) ->
  shares_no_memory x1 x2 -> shares_no_memory x1 kl ->
  shares_no_memory x2 kl ->
  has_shape m n k -> has_shape m n xa1 -> has_shape m n xa2 ->
  0 < m -> 0 < n -> array_sum k <> 0%R ->
  let h1 := snd (__call__ self x1 h) in
  let r2 := __call__ self x2 h1 in
  fst r2 = Return tt
  /\ snd r2 !! x1 = Some (ObjArray (apply_spec k xa1))
  /\ snd r2 !! x2 = Some (ObjArray (apply_spec k xa2))
  /\ snd r2 !! kl = Some (ObjArray k).
Proof.
  intros Hself Hkl Hx1 Hx2 H12 H1k H2k Hk Hxa1 Hxa2 Hm Hn _. cbv zeta.
  unfold shares_no_memory in *.
  rewrite (call_apply_spec self x1 kl h m n k xa1 Hself Hkl Hx1 Hk Hxa1 Hm Hn).
  cbn [snd].
  rewrite (call_apply_spec self x2 kl _ m n k xa2 Hself)
    by (rewrite ?lookup_insert_ne by congruence; assumption).
  cbn [fst snd]. split; [reflexivity|]. split; [|split].
  - rewrite lookup_insert_ne by congruence. apply lookup_insert_eq.
  - apply lookup_insert_eq.
  - now rewrite !lookup_insert_ne by congruence.
Qed.

(** ** The sign of zero in binary64 *)

Lemma f64_add_zero_not_negative_zero (w : float64) :
  f64_add (S754_zero false) w <> S754_zero true.
Proof.
  destruct w as [s|s| |s mw ew]; cbn; try discriminate.
  now destruct s.
Qed.

(** X17: in binary64, because the field is filled with [0.0] and the
    result is added to it, a call on a field of the shape of the
    kernel array never leaves a negative zero in the field: every
    element is [0.0 + v / s] for an element [v] of the rolled
    convolution and the sum [s] of the kernel array. *)
Theorem call_leaves_no_negative_zero
    (sum : ndarray float64 -> float64)
    (dft : ndarray float64 -> nat -> nat -> complex128)
    (idft : ndarray complex128 -> nat -> nat -> complex128)
    (self : Convolve) (x kl : loc) (h : gmap loc (pyobj float64))
    (m n : nat) (k xa : ndarray float64) :
  kernel self = Some (PyRef kl) ->
  h !! kl = Some (ObjArray k) -> h !! x = Some (ObjArray xa) ->
  has_shape m n k -> has_shape m n xa -> 0 < m -> 0 < n ->
  exists xa',
    @__call__ float64 complex128 (float64_numpy sum dft idft) self x h
    = (Return tt, <[x := ObjArray xa']> h)
    /\ has_shape m n xa'
    /\ Forall (Forall (fun v => v <> S754_zero true)) xa'.
Proof.
  intros Hself Hkl Hxl Hk Hx Hm Hn.
  eexists. split; [|split].
  - exact (@call_same_shape _ _ (float64_numpy sum dft idft)
             self x kl h m n k xa Hself Hkl Hxl Hk Hx Hm Hn).
  - apply has_shape_mk2.
  - apply Forall_mk2. intros i j _ _. cbn [np_add np_zero float64_numpy].
    apply f64_add_zero_not_negative_zero.
Qed.

(** ** A kernel array of shape (1, 1) *)

Set Implicit Arguments.

Section Broadcast.
Context {real cplx : Type} `{NumPy real cplx}.

Lemma roll_zero {A} (l : list A) : roll 0 l = l.
Proof.
  unfold roll. cbn [Z.opp]. rewrite Zmod_0_l. cbn [Z.to_nat skipn firstn].
  apply app_nil_r.
Qed.

Lemma roll_cols_zero {A} (a : ndarray A) : roll_cols 0 a = a.
Proof.
  unfold roll_cols. rewrite (map_ext _ (fun l => l)) by apply roll_zero.
  apply map_id.
Qed.

Lemma broadcast_dim_1_r m : broadcast_dim m 1 = Some m.
Proof.
  unfold broadcast_dim. destruct (Nat.eqb_spec m 1) as [->|]; reflexivity.
Qed.

Lemma iadd_fill_zero m n (xa c : ndarray real) :
  has_shape m n xa -> has_shape m n c -> 0 < m ->
  iadd (fill_zero xa) c
  = Return (mk2 m n (fun i j => np_add np_zero (item np_zero c i j))).
Proof.
  intros Hx Hc Hm.
  assert (Hf : has_shape m n (fill_zero xa)) by now apply has_shape_map.
  unfold iadd.
  rewrite (has_shape_nrows Hf), (has_shape_ncols Hf Hm),
    (has_shape_nrows Hc), (has_shape_ncols Hc Hm), !broadcast_dim_refl,
    !Nat.eqb_refl.
  cbn [andb]. f_equal. apply mk2_ext. intros i j Hi Hj.
  rewrite (bidx_lt Hi), (bidx_lt Hj).
  unfold fill_zero. now rewrite (item_map _ np_zero np_zero Hx Hi Hj).
Qed.

(** [convolved] for a kernel array with a single element. *)
Lemma convolved_scalar_kernel m n (v : real) (xa : ndarray real) :
  has_shape m n xa -> 0 < m -> 0 < n ->
  convolved (Some [[v]]) xa
  = Return (divide
      (real_part (mk2 m n (np_idft2 (mk2 m n (fun i j =>
         np_cmul (np_dft2 xa i j) (np_dft2 [[v]] 0 0))))))
      (np_sum [[v]])).
Proof.
  intros Hx Hm Hn.
  assert (Hk : has_shape 1 1 [[v]]) by (split; [reflexivity | repeat constructor]).
  unfold convolved.
  rewrite (fft2_shape Hx Hm Hn), (fft2_shape Hk Nat.lt_0_1 Nat.lt_0_1).
  cbn [bind]. rewrite multiply_shapes by lia.
  rewrite !broadcast_dim_1_r. cbn [bind].
  rewrite ifft2_shape by assumption. cbn [bind nrows ncols length hd].
  change (1 / 2) with 0. cbn [Z.of_nat Z.opp].
  unfold roll_rows. rewrite roll_zero, roll_cols_zero.
  do 5 f_equal. apply mk2_ext. intros i j Hi Hj.
  rewrite (bidx_lt Hi), (bidx_lt Hj), (item_mk2 _ _ Hi Hj).
  reflexivity.
Qed.
End Broadcast.

Unset Implicit Arguments.

(** X18: a kernel array of shape (1, 1) is broadcast against a field
    of any shape.  When its element is not zero, Apply returns and
    leaves the store, hence the field, as it was. *)
Theorem call_scalar_kernel
    (self : Convolve) (x kl : loc) (h : gmap loc (pyobj R))
    (m n : nat) (c : R) (xa : ndarray R) :
  kernel self = Some (PyRef kl) ->
  h !! kl = Some (ObjArray [[c]]) -> h !! x = Some (ObjArray xa) ->
  has_shape m n xa -> 0 < m -> 0 < n -> c <> 0%R ->
  __call__ self x h = (Return tt, h).
Proof.
  intros Hself Hkl Hxl Hx Hm Hn Hc.
  rewrite (call_contents self x h Hself Hkl Hxl).
  rewrite (convolved_scalar_kernel c Hx Hm Hn).
  rewrite (@iadd_fill_zero R complex exact_numpy m n xa _ Hx)
    by (try exact Hm; apply has_shape_map, has_shape_map, has_shape_mk2).
  rewrite (mk2_ext _ (item 0%R xa)); [now rewrite (mk2_item 0%R Hx), insert_id|].
  intros i j Hi Hj.
  unfold divide, real_part.
  rewrite (item_map _ 0%R 0%R (has_shape_map _ (has_shape_mk2 m n _)) Hi Hj).
  rewrite (item_map _ C0 0%R (has_shape_mk2 m n _) Hi Hj).
  rewrite (item_mk2 _ _ Hi Hj).
  cbn [np_add np_div np_zero np_sum np_re np_idft2 np_cmul np_dft2 exact_numpy].
  rewrite nrows_mk2, (ncols_mk2 _ _ Hm).
  rewrite (has_shape_nrows Hx), (has_shape_ncols Hx Hm).
  rewrite (idft2_ext m n _ (fun u v =>
             Cmul (RtoC c)
               (dft2 m n (fun a b => RtoC (item 0%R xa a b)) u v))).
  - rewrite idft2_mul_l, idft2_dft2 by assumption.
    cbv [array_sum Rlist_sum concat app fold_right]. cbn [Re Im RtoC Cmul].
    field. lra.
  - intros u v Hu Hv. rewrite (item_mk2 _ _ Hu Hv).
    rewrite dft2_0_0.
    cbn [nrows ncols length hd Csum item nth].
    apply complex_eq; cbn; ring.
Qed.

(** ** The further properties at sample inputs *)

Lemma array_sum_sample : array_sum [[0; 1]; [1; 2]]%R = 4%R.
Proof. cbv [array_sum Rlist_sum concat app fold_right]. lra. Defined.

Lemma array_sum_sample_not_zero : array_sum [[0; 1]; [1; 2]]%R <> 0%R.
Proof. rewrite array_sum_sample. lra. Defined.

Lemma call_circular_convolution_witness :
  let k : ndarray R := [[0; 1]; [1; 2]]%R in
  let xa : ndarray R := [[1; 2]; [3; 4]]%R in
  has_shape 2 2 k /\ has_shape 2 2 xa
  /\ __call__ prepared_operator 2%positive (sample_store k xa)
     = (Return tt,
        <[2%positive := ObjArray (mk2 2 2 (fun i j =>
             (circ_conv 2 2 k xa ((i + 2 / 2) mod 2) ((j + 2 / 2) mod 2)
              / array_sum k)%R))]> (sample_store k xa)).
Proof.
  intros k xa. split; [apply has_shape_2_2|]. split; [apply has_shape_2_2|].
  apply (call_circular_convolution prepared_operator 2%positive 1%positive
           (sample_store k xa) 2 2 k xa).
  - reflexivity.
  - reflexivity.
  - reflexivity.
  - apply has_shape_2_2.
  - apply has_shape_2_2.
  - lia.
  - lia.
  - exact array_sum_sample_not_zero.
Defined.

Lemma inverse_transform_is_real_witness :
  let k : ndarray R := [[0; 1]; [1; 2]]%R in
  let xa : ndarray R := [[1; 2]; [3; 4]]%R in
  exists f1 f2 prod inv : ndarray complex,
    fft2 (Some xa) = Return f1 /\ fft2 (Some k) = Return f2
    /\ multiply f1 f2 = Return prod /\ ifft2 prod = Return inv
    /\ inv = mk2 2 2 (fun i j => RtoC (circ_conv 2 2 k xa i j))
    /\ Forall (Forall (fun z => Im z = 0%R)) inv.
Proof.
  intros k xa. eexists _, _, _, _.
  split; [reflexivity|]. split; [reflexivity|].
  split; [reflexivity|]. split; [reflexivity|].
  eapply (inverse_transform_is_real 2 2 k xa).
  - apply has_shape_2_2.
  - apply has_shape_2_2.
  - lia.
  - lia.
  - reflexivity.
  - reflexivity.
  - reflexivity.
  - reflexivity.
Defined.

Lemma call_linear_witness :
  let k : ndarray R := [[0; 1]; [1; 2]]%R in
  let xa : ndarray R := [[1; 2]; [3; 4]]%R in
  let ya : ndarray R := [[0; 1]; [0; 1]]%R in
  let za : ndarray R :=
    mk2 2 2 (fun i j => (2 * item 0 xa i j + 3 * item 0 ya i j)%R) in
  __call__ prepared_operator 2%positive (sample_store k za)
  = (Return tt,
     <[2%positive := ObjArray (mk2 2 2 (fun i j =>
          (2 * item 0 (apply_spec k xa) i j
           + 3 * item 0 (apply_spec k ya) i j)%R))]> (sample_store k za)).
Proof.
  intros k xa ya za.
  apply (call_linear prepared_operator 2%positive 1%positive
           (sample_store k za) 2 2 k xa ya 2 3).
  - reflexivity.
  - reflexivity.
  - reflexivity.
  - apply has_shape_2_2.
  - apply has_shape_2_2.
  - apply has_shape_2_2.
  - lia.
  - lia.
  - exact array_sum_sample_not_zero.
Defined.

Lemma call_kernel_scale_invariant_witness :
  let k : ndarray R := [[0; 1]; [1; 2]]%R in
  let xa : ndarray R := [[1; 2]; [3; 4]]%R in
  let k2 : ndarray R := mk2 2 2 (fun i j => (2 * item 0 k i j)%R) in
  (2 <> 0)%R
  /\ __call__ prepared_operator 2%positive (sample_store k2 xa)
     = (Return tt,
        <[2%positive := ObjArray (apply_spec k xa)]> (sample_store k2 xa)).
Proof.
  intros k xa k2. split; [lra|].
  apply (call_kernel_scale_invariant prepared_operator 2%positive 1%positive
           (sample_store k2 xa) 2 2 k xa 2).
  - reflexivity.
  - reflexivity.
  - reflexivity.
  - apply has_shape_2_2.
  - apply has_shape_2_2.
  - lia.
  - lia.
  - lra.
  - exact array_sum_sample_not_zero.
Defined.

Lemma call_impulse_response_witness :
  let k : ndarray R := [[0; 1]; [1; 2]]%R in
  let xa : ndarray R := centre_impulse 2 2 in
  impulse_at 2 2 1 1 xa
  /\ __call__ prepared_operator 2%positive (sample_store k xa)
     = (Return tt,
        <[2%positive := ObjArray (mk2 2 2 (fun i j =>
             (item 0 k (((i + 2 / 2) mod 2 + (2 - 1)) mod 2)
                       (((j + 2 / 2) mod 2 + (2 - 1)) mod 2)
              / array_sum k)%R))]> (sample_store k xa)).
Proof.
  intros k xa. split; [apply (impulse_at_centre_impulse 2 2)|].
  apply (call_impulse_response prepared_operator 2%positive 1%positive
           (sample_store k xa) 2 2 1 1 k xa).
  - reflexivity.
  - reflexivity.
  - reflexivity.
  - apply has_shape_2_2.
  - apply (impulse_at_centre_impulse 2 2).
  - lia.
  - lia.
  - exact array_sum_sample_not_zero.
Defined.

Lemma call_constant_field_witness :
  let k : ndarray R := [[0; 1]; [1; 2]]%R in
  let xa : ndarray R := mk2 2 2 (fun _ _ => 5%R) in
  array_sum k <> 0%R
  /\ __call__ prepared_operator 2%positive (sample_store k xa)
     = (Return tt, sample_store k xa).
Proof.
  intros k xa.
  assert (Hs : array_sum k <> 0%R) by (unfold k; rewrite array_sum_sample; lra).
  split; [exact Hs|].
  apply (call_constant_field prepared_operator 2%positive 1%positive
           (sample_store k xa) 2 2 k 5).
  - reflexivity.
  - reflexivity.
  - reflexivity.
  - apply has_shape_2_2.
  - lia.
  - lia.
  - exact Hs.
Defined.

Lemma call_range_bounded_witness :
  let k : ndarray R := [[0; 1]; [1; 2]]%R in
  let xa : ndarray R := [[1; 2]; [3; 4]]%R in
  Forall (Forall (fun v => (0 <= v)%R)) k
  /\ Forall (Forall (fun v => (1 <= v <= 4)%R)) xa
  /\ exists xa',
       __call__ prepared_operator 2%positive (sample_store k xa)
       = (Return tt, <[2%positive := ObjArray xa']> (sample_store k xa))
       /\ has_shape 2 2 xa'
       /\ Forall (Forall (fun v => (1 <= v <= 4)%R)) xa'.
Proof.
  intros k xa.
  assert (Hk : Forall (Forall (fun v => (0 <= v)%R)) k)
    by (repeat constructor; lra).
  assert (Hx : Forall (Forall (fun v => (1 <= v <= 4)%R)) xa)
    by (repeat constructor; lra).
  split; [exact Hk|]. split; [exact Hx|].
  apply (call_range_bounded prepared_operator 2%positive 1%positive
           (sample_store k xa) 2 2 k xa 1 4).
  - reflexivity.
  - reflexivity.
  - reflexivity.
  - apply has_shape_2_2.
  - apply has_shape_2_2.
  - lia.
  - lia.
  - exact Hk.
  - unfold k. rewrite array_sum_sample. lra.
  - exact Hx.
Defined.

Lemma call_shift_equivariant_witness :
  let k : ndarray R := [[0; 1]; [1; 2]]%R in
  let xa : ndarray R := [[1; 2]; [3; 4]]%R in
  shifted 1 1 xa = [[4; 3]; [2; 1]]%R
  /\ __call__ prepared_operator 2%positive (sample_store k (shifted 1 1 xa))
     = (Return tt,
        <[2%positive := ObjArray (shifted 1 1 (apply_spec k xa))]>
          (sample_store k (shifted 1 1 xa))).
Proof.
  intros k xa. split; [reflexivity|].
  apply (call_shift_equivariant prepared_operator 2%positive 1%positive
           (sample_store k (shifted 1 1 xa)) 2 2 1 1 k xa).
  - reflexivity.
  - reflexivity.
  - reflexivity.
  - apply has_shape_2_2.
  - apply has_shape_2_2.
  - lia.
  - lia.
  - exact array_sum_sample_not_zero.
Defined.

Lemma call_shapes_do_not_broadcast_witness :
  let k : ndarray R := [[1]; [1]; [1]]%R in
  let xa : ndarray R := [[1]; [2]]%R in
  broadcast_dim 2 3 = None
  /\ __call__ prepared_operator 2%positive (sample_store k xa)
     = (Raise ValueError, sample_store k xa).
Proof.
  intros k xa. split; [reflexivity|].
  apply (@call_shapes_do_not_broadcast R complex exact_numpy
           prepared_operator 2%positive 1%positive (sample_store k xa)
           2 1 3 1 k xa).
  - reflexivity.
  - reflexivity.
  - reflexivity.
  - split; [reflexivity | repeat constructor].
  - split; [reflexivity | repeat constructor].
  - lia.
  - lia.
  - lia.
  - lia.
  - left. reflexivity.
Defined.

Lemma call_field_zeroed_on_error_witness :
  let k : ndarray R := [[0; 1]; [1; 2]]%R in
  let xa : ndarray R := [[1; 2]]%R in
  broadcast_dim 1 2 = Some 2 /\ (2, 2) <> (1, 2)
  /\ __call__ prepared_operator 2%positive (sample_store k xa)
     = (Raise ValueError,
        <[2%positive := ObjArray [[0; 0]]%R]> (sample_store k xa)).
Proof.
  intros k xa. split; [reflexivity|]. split; [discriminate|].
  apply (@call_field_zeroed_on_error R complex exact_numpy
           prepared_operator 2%positive 1%positive (sample_store k xa)
           1 2 2 2 2 2 k xa).
  - reflexivity.
  - reflexivity.
  - reflexivity.
  - apply has_shape_2_2.
  - split; [reflexivity | repeat constructor].
  - lia.
  - lia.
  - lia.
  - lia.
  - reflexivity.
  - reflexivity.
  - discriminate.
Defined.

Lemma call_empty_field_witness :
  let k : ndarray R := [[0; 1]; [1; 2]]%R in
  let xa : ndarray R := [] in
  nrows xa = 0
  /\ __call__ prepared_operator 2%positive (sample_store k xa)
     = (Raise ValueError, sample_store k xa).
Proof.
  intros k xa. split; [reflexivity|].
  apply (@call_empty_field R complex exact_numpy
           prepared_operator 2%positive 1%positive (sample_store k xa) k xa).
  - reflexivity.
  - reflexivity.
  - reflexivity.
  - left. reflexivity.
Defined.

Lemma initialize_without_scs_witness :
  let h : gmap loc (pyobj R) := {[ 3%positive := ObjPattern sample_pattern ]} in
  let kwargs : gmap string (SheetCoordinateSystem R) := ∅ in
  kwargs !! "SCS"%string = None
  /\ exists e,
       initialize sample_composite (__init__ 3%positive) kwargs h
       = (Raise e, __init__ 3%positive, h).
Proof.
  intros h kwargs. split; [reflexivity|].
  apply (initialize_without_scs sample_composite (__init__ 3%positive) kwargs h).
  reflexivity.
Defined.





Lemma calls_on_two_fields_witness :
  let k : ndarray R := [[0; 1]; [1; 2]]%R in
  let xa1 : ndarray R := [[1; 2]; [3; 4]]%R in
  let xa2 : ndarray R := [[5; 6]; [7; 8]]%R in
  let h : gmap loc (pyobj R) :=
    <[7%positive := ObjArray xa2]> (sample_store k xa1) in
  let h1 := snd (__call__ prepared_operator 2%positive h) in
  let r2 := __call__ prepared_operator 7%positive h1 in
  fst r2 = Return tt
  /\ snd r2 !! 2%positive = Some (ObjArray (apply_spec k xa1))
  /\ snd r2 !! 7%positive = Some (ObjArray (apply_spec k xa2))
  /\ snd r2 !! 1%positive = Some (ObjArray k).
Proof.
  intros k xa1 xa2 h.
  apply (calls_on_two_fields prepared_operator 2%positive 7%positive 1%positive
           h 2 2 k xa1 xa2).
  - reflexivity.
  - reflexivity.
  - reflexivity.
  - reflexivity.
  - discriminate.
  - discriminate.
  - discriminate.
  - apply has_shape_2_2.
  - apply has_shape_2_2.
  - apply has_shape_2_2.
  - lia.
  - lia.
  - exact array_sum_sample_not_zero.
Defined.

Lemma call_leaves_no_negative_zero_witness :
  let k : ndarray float64 := [[f64_one; f64_zero]; [f64_zero; f64_one]] in
  let xa : ndarray float64 :=
    [[SFopp f64_zero; f64_one]; [SFopp f64_one; f64_zero]] in
  let h := sample_store k xa in
  exists xa',
    @__call__ float64 complex128
      (float64_numpy sample_sum sample_dft sample_idft)
      prepared_operator 2%positive h
    = (Return tt, <[2%positive := ObjArray xa']> h)
    /\ has_shape 2 2 xa'
    /\ Forall (Forall (fun v => v <> S754_zero true)) xa'.
Proof.
  intros k xa h.
  apply (call_leaves_no_negative_zero sample_sum sample_dft sample_idft
           prepared_operator 2%positive 1%positive h 2 2 k xa).
  - reflexivity.
  - reflexivity.
  - reflexivity.
  - apply has_shape_2_2.
  - apply has_shape_2_2.
  - lia.
  - lia.
Defined.

Lemma call_scalar_kernel_witness :
  let k : ndarray R := [[3%R]] in
  let xa : ndarray R := [[1; 2]; [3; 4]]%R in
  (3 <> 0)%R
  /\ __call__ prepared_operator 2%positive (sample_store k xa)
     = (Return tt, sample_store k xa).
Proof.
  intros k xa. split; [lra|].
  apply (call_scalar_kernel prepared_operator 2%positive 1%positive
           (sample_store k xa) 2 2 3 xa).
  - reflexivity.
  - reflexivity.
  - reflexivity.
  - apply has_shape_2_2.
  - lia.
  - lia.
  - lra.
Defined.
